(** * DialogueConverter: a shallow embedding of [src/DialogueConverter.py]

    The development follows the Python class [DialogueConverter]:
    the line parser ([parse_line]), the segmenter ([_process_lines],
    [read_from_text]), the score aggregator ([calculate_dialogue_average],
    [scale_score], [get_statistics]) and the record built by
    [to_json_format].

    Modelling choices.
    - A Python [str] is a list of Unicode code points ([N]).
    - A Python [int] is a [Z].  The quotient computed by [/] is kept as the
      exact rational ([Q]); Python rounds that quotient to the nearest
      binary64 value, which the model does not do.
    - The builtin [int()] is an interface ([IntParser]); every general
      theorem holds for any implementation of it.  [ascii_int] is the
      implementation used to run examples.
    - The lists of turns are mutable objects that the converter shares
      between [self.current_dialogue] and the finalized dialogues, so they
      live in a store and are named by references. *)

From Stdlib Require Import ZArith QArith Qround String Ascii Lia Lqa DecimalString.
From stdpp Require Import base option list sorting.

Local Open Scope string_scope.
Local Open Scope list_scope.
Local Open Scope Z_scope.

(** ** Strings *)

Module Str.

Definition char := N.
Definition str := list char.

Definition TAB : char := 9%N.
Definition LF : char := 10%N.
Definition COMMA : char := 44%N.

(** A string literal as a [str]. *)
Definition lit (s : string) : str :=
  map N_of_ascii (list_ascii_of_string s).

(** [str.join] for the examples: [tsv] joins fields with tabs. *)
Fixpoint join (sep : str) (l : list str) : str :=
  match l with
  | [] => []
  | [x] => x
  | x :: r => x ++ sep ++ join sep r
  end.

Definition tsv (fields : list string) : str :=
  join [TAB] (map lit fields).

(** The characters removed by [str.strip()] without argument: the code
    points for which CPython's [Py_UNICODE_ISSPACE] holds. *)
Definition is_space (c : char) : bool :=
  ((9 <=? c) && (c <=? 13) || (28 <=? c) && (c <=? 32)
   || (c =? 133) || (c =? 160) || (c =? 5760)
   || (8192 <=? c) && (c <=? 8202)
   || (c =? 8232) || (c =? 8233) || (c =? 8239) || (c =? 8287)
   || (c =? 12288))%N.

Fixpoint lstrip (s : str) : str :=
  match s with
  | [] => []
  | c :: r => if is_space c then lstrip r else s
  end.

Fixpoint rstrip (s : str) : str :=
  match s with
  | [] => []
  | c :: r =>
      match rstrip r with
      | [] => if is_space c then [] else [c]
      | r' => c :: r'
      end
  end.

(** [s.strip()] *)
Definition strip (s : str) : str := rstrip (lstrip s).

(** [s.split(sep)] for a one-character separator: never the empty list. *)
Fixpoint split (sep : char) (s : str) : list str :=
  match s with
  | [] => [[]]
  | c :: r =>
      if (c =? sep)%N then [] :: split sep r
      else match split sep r with
           | f :: fs => (c :: f) :: fs
           | [] => [[c]]
           end
  end.

(** Truth value of a string or of a list: non-empty. *)
Definition truthy {A} (l : list A) : bool :=
  match l with [] => false | _ => true end.

Definition eqb (a b : str) : bool := bool_decide (a = b).

End Str.
Import Str.

(** ** The builtin [int()] *)

(** [py_int s] is [int(s)] in base 10: [None] stands for [ValueError]. *)
Class IntParser := py_int : str -> option Z.

Module AsciiInt.

Definition digit (c : char) : option Z :=
  if ((48 <=? c) && (c <=? 57))%N then Some (Z.of_N (c - 48)) else None.

(** Digits, with single underscores allowed between two digits. *)
Fixpoint digits (acc : Z) (after_digit : bool) (s : str) : option Z :=
  match s with
  | [] => if after_digit then Some acc else None
  | c :: r =>
      if (c =? 95)%N then
        if after_digit then digits acc false r else None
      else
        match digit c with
        | Some d => digits (acc * 10 + d) true r
        | None => None
        end
  end.

(** [int()] on a string of ASCII characters: surrounding whitespace,
    an optional sign, then the digits. *)
Definition ascii_int (s : str) : option Z :=
  match strip s with
  | 43%N :: r => digits 0 false r
  | 45%N :: r => Z.opp <$> digits 0 false r
  | r => digits 0 false r
  end.

End AsciiInt.

#[export] Instance ascii_int_parser : IntParser := AsciiInt.ascii_int.

(** ** Data model *)

(** The dict returned by [parse_line]. *)
Record Turn := mkTurn {
  speaker : str;
  text : str;
  intent : str;
  scores : option (list Z)
}.

(** A reference to a list of turns in the store. *)
Definition ref := nat.
Bind Scope nat_scope with ref.

(** A finalized dialogue: [{"turns": ..., "overall_scores": ...}].
    ["turns"] holds a list object, not a copy of it. *)
Record Dialogue := mkDialogue {
  turns : ref;
  overall_scores : option (list Z)
}.

(** The instance state: [self.dialogues], [self.current_dialogue], and
    the store of the list objects they point to. *)
Record DialogueConverter := mkConverter {
  heap : list (list Turn);
  dialogues : list Dialogue;
  current_dialogue : ref
}.

(** The list a reference points to. *)
Definition deref (h : list (list Turn)) (r : ref) : list Turn :=
  default [] (h !! r).

(** The turns of a finalized dialogue, read through the store. *)
Definition dialogue_turns (self : DialogueConverter) (d : Dialogue) : list Turn :=
  deref (heap self) (turns d).

(** [DialogueConverter()]: no dialogue, and a fresh empty list as the
    accumulator. *)
Definition __init__ : DialogueConverter :=
  {| heap := [[]]; dialogues := []; current_dialogue := 0%nat |}.

(** ** Exceptions and the state of [self] *)

Inductive exn := ValueError.

Inductive outcome (A : Type) :=
| Return (a : A)
| Raise (e : exn).
Arguments Return {A} a.
Arguments Raise {A} e.

(** A method of the converter: it returns or raises, and leaves [self] in
    the state it reached either way. *)
Definition M (A : Type) := DialogueConverter -> outcome A * DialogueConverter.

#[export] Instance M_ret : MRet M := fun A a self => (Return a, self).

#[export] Instance M_bind : MBind M := fun A B k m self =>
  match m self with
  | (Return a, self') => k a self'
  | (Raise e, self') => (Raise e, self')
  end.

Definition lift {A} (o : outcome A) : M A := fun self => (o, self).

Definition gets {A} (f : DialogueConverter -> A) : M A :=
  fun self => (Return (f self), self).

Definition modify (f : DialogueConverter -> DialogueConverter) : M unit :=
  fun self => (Return tt, f self).

(** [for x in l: body(x)] *)
Fixpoint for_each {A} (body : A -> M unit) (l : list A) : M unit :=
  match l with
  | [] => mret tt
  | x :: r => body x ;; for_each body r
  end.

(** [self.dialogues.append(d)] *)
Definition dialogues_append (d : Dialogue) : M unit :=
  modify (fun self =>
    {| heap := heap self;
       dialogues := dialogues self ++ [d];
       current_dialogue := current_dialogue self |}).

(** [self.current_dialogue = []]: a new list object. *)
Definition current_dialogue_reset : M unit :=
  modify (fun self =>
    {| heap := heap self ++ [[]];
       dialogues := dialogues self;
       current_dialogue := length (heap self) |}).

(** [self.current_dialogue.append(t)]: the list object is updated in
    place, for every holder of the reference. *)
Definition current_dialogue_append (t : Turn) : M unit :=
  modify (fun self =>
    let r := current_dialogue self in
    {| heap := <[r := deref (heap self) r ++ [t]]> (heap self);
       dialogues := dialogues self;
       current_dialogue := r |}).

(** ** The line parser and the segmenter *)

Section Converter.

Context `{IntParser}.

(** The tokens of the score field that reach [int()]:
    [s.strip() for s in scores.split(',') if s.strip()]. *)
Definition score_tokens (scores : str) : list str :=
  List.filter truthy (map strip (split COMMA scores)).

(** [[int(s.strip()) for s in scores.split(',') if s.strip()]] *)
Definition score_ints (scores : str) : outcome (list Z) :=
  match mapM py_int (score_tokens scores) with
  | Some l => Return l
  | None => Raise ValueError
  end.

(** [parts[3].strip() if len(parts) > 3 else ""] *)
Definition score_field (parts : list str) : str :=
  match parts !! 3%nat with
  | Some p => strip p
  | None => []
  end.

Definition parse_line (line : str) : outcome (option Turn) :=
  let parts := split TAB (strip line) in
  match parts with
  | p0 :: p1 :: p2 :: _ =>
      let scores := score_field parts in
      match (if truthy scores then score_ints scores else Return []) with
      | Return score_list =>
          Return (Some {| speaker := strip p0;
                          text := strip p1;
                          intent := strip p2;
                          scores := if truthy score_list
                                    then Some score_list else None |})
      | Raise e => Raise e
      end
  | _ => Return None (* len(parts) < 3 *)
  end.

(** The end-of-dialogue marker. *)
Definition is_overall (parsed : Turn) : bool :=
  eqb (speaker parsed) (lit "USER") && eqb (text parsed) (lit "OVERALL").

(** The body of the loop of [_process_lines]. *)
Definition process_line (line : str) : M unit :=
  if negb (truthy (strip line)) then mret tt
  else
    parsed ← lift (parse_line line);
    match parsed with
    | None => mret tt
    | Some parsed =>
        if is_overall parsed then
          cur ← gets (fun self => deref (heap self) (current_dialogue self));
          if truthy cur then
            r ← gets current_dialogue;
            dialogues_append {| turns := r; overall_scores := scores parsed |} ;;
            current_dialogue_reset
          else mret tt
        else current_dialogue_append parsed
    end.

(** The flush after the loop: the last dialogue, if any. *)
Definition flush_last : M unit :=
  cur ← gets (fun self => deref (heap self) (current_dialogue self));
  if truthy cur then
    r ← gets current_dialogue;
    dialogues_append {| turns := r; overall_scores := None |}
  else mret tt.

Definition _process_lines (lines : list str) : M unit :=
  for_each process_line lines ;;
  flush_last.

(** [read_from_file], on the list [f.readlines()] returns for the file. *)
Definition read_from_file (lines : list str) : M unit :=
  _process_lines lines.

(** [read_from_text] splits the stripped text at line feeds. *)
Definition read_from_text (text : str) : M unit :=
  _process_lines (split LF (strip text)).

End Converter.

(** The finalized corpus as values: each dialogue with its turns read
    through the store. *)
Definition corpus (self : DialogueConverter) : list (list Turn * option (list Z)) :=
  map (fun d => (dialogue_turns self d, overall_scores d)) (dialogues self).

Definition turn (sp tx it : string) (sc : option (list Z)) : Turn :=
  mkTurn (lit sp) (lit tx) (lit it) sc.


(** ** The score aggregator *)

(** [sum(l)] and [len(l)] *)
Definition sum (l : list Z) : Z := foldr Z.add 0 l.

Definition len {A} (l : list A) : Z := Z.of_nat (length l).

(** [sum(l) / len(l)], as the exact quotient. *)
Definition mean (l : list Z) : Q := inject_Z (sum l) / inject_Z (len l).

(** What a truth test and an iteration see of an optional list: [None]
    and [[]] are both false and both contribute nothing. *)
Definition items {A} (o : option (list A)) : list A := default [] o.

Definition calculate_dialogue_average
    (self : DialogueConverter) (dialogue : Dialogue) : Q :=
  if truthy (items (overall_scores dialogue)) then
    mean (items (overall_scores dialogue))
  else
    let all_scores :=
      foldl (fun all_scores turn =>
               if truthy (items (scores turn))
               then all_scores ++ items (scores turn) (* extend *)
               else all_scores)
            [] (dialogue_turns self dialogue) in
    if truthy all_scores then mean all_scores else 0%Q.

Definition scale_score (score old_min old_max new_min new_max : Q) : Q :=
  if Qeq_bool (old_max - old_min) 0 then new_min
  else (new_min + (score - old_min) * (new_max - new_min) / (old_max - old_min))%Q.

(** [self.scale_score(score)] with the default ranges 1..5 and 1..100. *)
Definition scale_score_default (score : Q) : Q := scale_score score 1 5 1 100.

(** [x > 0] *)
Definition positive (x : Q) : bool :=
  match (x ?= 0)%Q with Gt => true | _ => false end.

(** Rounding to the nearest integer, ties to the even one. *)
Definition round_half_even (x : Q) : Z :=
  let f := Qfloor x in
  match (x - inject_Z f ?= 1 # 2)%Q with
  | Lt => f
  | Gt => f + 1
  | Eq => if Z.even f then f else f + 1
  end.

(** [round(x, 2)] *)
Definition round2 (x : Q) : Q :=
  (inject_Z (round_half_even (x * 100)) / 100)%Q.

(** ** The structured-record renderer *)

Module Json.

Record turn_data := {
  turn_id : Z;
  speaker : str;
  text : str;
  intent : str;
  scores : option (list Z)
}.

Record dialogue_data := {
  dialogue_id : Z;
  turns : list turn_data;
  overall_scores : option (list Z);
  average_score : Q;
  average_score_100 : option Q
}.

Record json_data := {
  total_dialogues : Z;
  dialogues : list dialogue_data
}.

End Json.

(** The record a turn becomes; [i] counts from 0, [turn_id] from 1. *)
Definition turn_data_of (i : nat) (turn : Turn) : Json.turn_data :=
  {| Json.turn_id := Z.of_nat i + 1;
     Json.speaker := speaker turn;
     Json.text := text turn;
     Json.intent := intent turn;
     Json.scores := scores turn |}.

(** The body of the loop over [enumerate(self.dialogues, 1)]. *)
Definition dialogue_data_of
    (self : DialogueConverter) (i : nat) (dialogue : Dialogue) : Json.dialogue_data :=
  let avg_score := calculate_dialogue_average self dialogue in
  {| Json.dialogue_id := Z.of_nat i + 1;
     Json.turns := imap turn_data_of (dialogue_turns self dialogue);
     Json.overall_scores := overall_scores dialogue;
     Json.average_score := round2 avg_score;
     Json.average_score_100 :=
       if positive avg_score
       then Some (round2 (scale_score_default avg_score))
       else None |}.

(** The value [to_json_format] hands to [json.dump]. *)
Definition to_json_format (self : DialogueConverter) : Json.json_data :=
  {| Json.total_dialogues := len (dialogues self);
     Json.dialogues := imap (dialogue_data_of self) (dialogues self) |}.

(** ** Corpus statistics *)

(** A [dict] from intent labels to counts, in insertion order. *)
Definition dict := list (str * Z).

(** [d.get(k, default)] *)
Fixpoint dict_get (d : dict) (k : str) (default : Z) : Z :=
  match d with
  | [] => default
  | (k', v) :: r => if eqb k' k then v else dict_get r k default
  end.

(** [d[k] = v]: an existing key keeps its place, a new one goes last. *)
Fixpoint dict_set (d : dict) (k : str) (v : Z) : dict :=
  match d with
  | [] => [(k, v)]
  | (k', v') :: r =>
      if eqb k' k then (k', v) :: r else (k', v') :: dict_set r k v
  end.

(** [d.values()] *)
Definition dict_values (d : dict) : list Z := map snd d.

Definition Qsum (l : list Q) : Q := foldr Qplus 0%Q l.

Record statistics := {
  total_dialogues : Z;
  total_turns : Z;
  average_turns_per_dialogue : Q;
  intent_distribution : dict;
  dialogue_average_scores : list Q;
  overall_average_score : Q;
  overall_average_score_100 : option Q
}.

(** [intent_counts[intent] = intent_counts.get(intent, 0) + 1] *)
Definition count_intent (intent_counts : dict) (turn : Turn) : dict :=
  dict_set intent_counts (intent turn)
           (dict_get intent_counts (intent turn) 0 + 1).

Definition get_statistics (self : DialogueConverter) : statistics :=
  let total_turns :=
    sum (map (fun d => len (dialogue_turns self d)) (dialogues self)) in
  let avg_turns :=
    if truthy (dialogues self)
    then (inject_Z total_turns / inject_Z (len (dialogues self)))%Q
    else 0%Q in
  let intent_counts :=
    foldl (fun intent_counts dialogue =>
             foldl count_intent intent_counts (dialogue_turns self dialogue))
          [] (dialogues self) in
  let dialogue_scores :=
    map (calculate_dialogue_average self) (dialogues self) in
  let overall_avg :=
    if truthy dialogue_scores
    then (Qsum dialogue_scores / inject_Z (len dialogue_scores))%Q
    else 0%Q in
  {| total_dialogues := len (dialogues self);
     total_turns := total_turns;
     average_turns_per_dialogue := round2 avg_turns;
     intent_distribution := intent_counts;
     dialogue_average_scores := dialogue_scores;
     overall_average_score := round2 overall_avg;
     overall_average_score_100 :=
       if positive overall_avg
       then Some (round2 (scale_score_default overall_avg))
       else None |}.

(** ** Notions used to state the properties *)

(** The effect of a sentinel on a non-empty accumulator, and of any other
    turn, on the state. *)
Definition closed (sc : option (list Z)) (self : DialogueConverter) : DialogueConverter :=
  {| heap := heap self ++ [[]];
     dialogues := dialogues self ++ [mkDialogue (current_dialogue self) sc];
     current_dialogue := length (heap self) |}.

Definition pushed (t : Turn) (self : DialogueConverter) : DialogueConverter :=
  {| heap := <[current_dialogue self :=
                 deref (heap self) (current_dialogue self) ++ [t]]> (heap self);
     dialogues := dialogues self;
     current_dialogue := current_dialogue self |}.

(** The turns still in the accumulator. *)
Definition accumulator (self : DialogueConverter) : list Turn :=
  deref (heap self) (current_dialogue self).

(** Following the spec's words: the concatenation, in turn order, of the
    scores of every turn whose scores are present. *)
Definition flattened_scores (ts : list Turn) : list Z :=
  concat (omap scores ts).

Section Notions.

Context `{IntParser}.

(** The score tokens of a line that reach [int()]. *)
Definition line_score_tokens (line : str) : list str :=
  match split TAB (strip line) with
  | p0 :: p1 :: p2 :: rest => score_tokens (score_field (p0 :: p1 :: p2 :: rest))
  | _ => []
  end.

(** A line with a score token that is not a valid integer. *)
Definition bad_score_line (line : str) : Prop :=
  Exists (fun tok => py_int tok = None) (line_score_tokens line).

(** The turns of the lines that parse as a turn, in input order. *)
Definition parsed_turns (lines : list str) : list Turn :=
  omap (fun line => match parse_line line with
                    | Return (Some t) => Some t
                    | _ => None
                    end) lines.

(** The dialogue at position [k] of [self.dialogues] was appended while
    the loop processed a sentinel line, whose turn is [t]. *)
Definition closed_by_sentinel
    (self : DialogueConverter) (lines : list str) (k : nat) (t : Turn) : Prop :=
  exists pre line post s1,
    lines = pre ++ line :: post /\
    for_each process_line pre self = (Return tt, s1) /\
    parse_line line = Return (Some t) /\
    is_overall t = true /\
    length (dialogues s1) = k /\
    length (dialogues (snd (process_line line s1))) = S k.

(** The dialogue at position [k] was appended by the flush at the end
    of the input. *)
Definition flushed_at_end
    (self : DialogueConverter) (lines : list str) (k : nat) : Prop :=
  exists s1,
    for_each process_line lines self = (Return tt, s1) /\
    length (dialogues s1) = k /\
    length (dialogues (snd (flush_last s1))) = S k.

End Notions.

(** ** The conversational-role renderer *)

Module Chat.

Record metadata := {
  intent : str;
  scores : option (list Z)
}.

Record message := {
  role : str;
  content : str;
  meta : option metadata (* the key "metadata", when it is set *)
}.

Record conversation := {
  conversation_id : Z;
  messages : list message;
  overall_scores : option (list Z);
  average_score : Q;
  average_score_100 : option Q
}.

End Chat.

(** The body of the loop over the turns of a dialogue. *)
Definition message_of (turn : Turn) : Chat.message :=
  {| Chat.role := if eqb (speaker turn) (lit "USER")
                  then lit "user" else lit "assistant";
     Chat.content := text turn;
     Chat.meta :=
       if negb (eqb (intent turn) (lit "OTHER")) || truthy (items (scores turn))
       then Some {| Chat.intent := intent turn; Chat.scores := scores turn |}
       else None |}.

Definition conversation_of
    (self : DialogueConverter) (i : nat) (dialogue : Dialogue) : Chat.conversation :=
  let avg_score := calculate_dialogue_average self dialogue in
  {| Chat.conversation_id := Z.of_nat i + 1;
     Chat.messages := map message_of (dialogue_turns self dialogue);
     Chat.overall_scores := overall_scores dialogue;
     Chat.average_score := round2 avg_score;
     Chat.average_score_100 :=
       if positive avg_score
       then Some (round2 (scale_score_default avg_score))
       else None |}.

(** The list under the key ["conversations"] that [to_chat_format_json]
    hands to [json.dump]. *)
Definition to_chat_format_json (self : DialogueConverter) : list Chat.conversation :=
  imap (conversation_of self) (dialogues self).

(** ** The order of the intents in [print_statistics] *)

(** [sorted(items, key=lambda x: -x[1])] is a stable sort; it is written
    here as an insertion sort that keeps equal keys in their order. *)
Fixpoint insert_by_count (x : str * Z) (l : list (str * Z)) : list (str * Z) :=
  match l with
  | [] => [x]
  | y :: r =>
      if (- snd x <=? - snd y)%Z then x :: y :: r
      else y :: insert_by_count x r
  end.

Definition sorted_by_count (items : list (str * Z)) : list (str * Z) :=
  foldr insert_by_count [] items.

(** The pairs the last loop of [print_statistics] goes through. *)
Definition printed_intents (self : DialogueConverter) : list (str * Z) :=
  sorted_by_count (intent_distribution (get_statistics self)).

(** ** The prompts of [prompt.py] *)

(** [str(n)] for an integer. *)
Definition str_of_Z (n : Z) : str := lit (NilZero.string_of_int (Z.to_int n)).

(** [enumerate(l, start)] *)
Fixpoint enumerate {A} (start : Z) (l : list A) : list (Z * A) :=
  match l with
  | [] => []
  | x :: r => (start, x) :: enumerate (start + 1) r
  end.

(** [f"\n\n=== Dialogue {idx} ===\n{dialogue}\n"], for a dialogue that is
    a string. *)
Definition dialogue_block (idx : Z) (dialogue : str) : str :=
  [LF; LF] ++ lit "=== Dialogue " ++ str_of_Z idx ++ lit " ===" ++ [LF]
  ++ dialogue ++ [LF].

(** The loop shared by [get_user_prompt_baseline], [get_user_prompt_barem]
    and [get_user_prompting_self_consistency]. *)
Definition dialogues_text (dialogues_batch : list str) : str :=
  foldl (fun dialogues_text '(idx, dialogue) =>
           dialogues_text ++ dialogue_block idx dialogue)
        [] (enumerate 1 dialogues_batch).



Section Prompts.

(** The literal text of a prompt before and after [{dialogues_text}]. *)
Variables (prompt_head prompt_tail : str).

(** [get_user_prompt_baseline], [get_user_prompt_barem] and
    [get_user_prompting_self_consistency], each with the text of its own
    template around the one substitution. *)
Definition get_user_prompt (dialogues_batch : list str) : str :=
  prompt_head ++ dialogues_text dialogues_batch ++ prompt_tail.

(** The literal text of the template of [get_user_prompting_agent_debate],
    in which [{{dialogues_text}}] is a doubled brace as well. *)
Variable debate_template : str.


End Prompts.

(** ** The segmenter as a fold over the parsed turns *)

(** The dialogues closed by sentinels, and the turns left over, when the
    turns [ts] follow the accumulated turns [acc]. *)
Fixpoint segment_loop (acc : list Turn) (ts : list Turn)
  : list (list Turn * option (list Z)) * list Turn :=
  match ts with
  | [] => ([], acc)
  | t :: r =>
      if is_overall t then
        if truthy acc then
          let '(ds, rest) := segment_loop [] r in ((acc, scores t) :: ds, rest)
        else segment_loop acc r
      else segment_loop (acc ++ [t]) r
  end.

(** With the flush at the end of the input. *)
Definition segment (acc : list Turn) (ts : list Turn)
  : list (list Turn * option (list Z)) :=
  let '(ds, rest) := segment_loop acc ts in
  ds ++ (if truthy rest then [(rest, None)] else []).

(** No finalized dialogue shares its list of turns with the accumulator,
    and every reference points into the store. *)
Definition separated (self : DialogueConverter) : Prop :=
  (current_dialogue self < length (heap self))%nat
  /\ Forall (fun d => (turns d < length (heap self))%nat
                      /\ turns d <> current_dialogue self)
            (dialogues self).


(** [f.readlines()], for a file whose decoded content is [s]: the lines,
    each with the line feed that ends it. *)
Fixpoint readlines (s : str) : list str :=
  match s with
  | [] => []
  | c :: r =>
      if (c =? LF)%N then [LF] :: readlines r
      else match readlines r with
           | [] => [[c]]
           | l :: ls => (c :: l) :: ls
           end
  end.

(** ** Reading the structured record back *)

Definition turn_of_data (td : Json.turn_data) : Turn :=
  mkTurn (Json.speaker td) (Json.text td) (Json.intent td) (Json.scores td).

(** The corpus a structured record describes, ids left out. *)
Definition corpus_of_json (j : Json.json_data)
  : list (list Turn * option (list Z)) :=
  map (fun dd => (map turn_of_data (Json.turns dd), Json.overall_scores dd))
      (Json.dialogues j).

(** All the turns of the finalized dialogues, in order. *)
Definition all_turns (self : DialogueConverter) : list Turn :=
  concat (map (dialogue_turns self) (dialogues self)).

(** The labels in the order in which each is first seen. *)
Definition add_key (keys : list str) (k : str) : list str :=
  if bool_decide (k ∈ keys) then keys else keys ++ [k].

Definition first_seen (labels : list str) : list str :=
  foldl add_key [] labels.

(** The lists of turns in the store only grow, at their end. *)
Definition grows (h h' : list (list Turn)) : Prop :=
  forall r, deref h r `prefix_of` deref h' r.

(** ** Inputs of the examples *)

(** A two-field line: not a turn. *)
Definition short_line : str := tsv ["USER"; "Hi"].

(** A dialogue, its sentinel, then a line with a score that is no integer. *)
Definition lines_bad_score_after_sentinel : list str :=
  [tsv ["SYSTEM"; "Hello"; "OTHER"];
   tsv ["USER"; "OVERALL"; "OTHER"; "5"];
   tsv ["USER"; "Hi"; "OTHER"; "3,x"]].

(** One turn and no sentinel. *)
Definition lines_unterminated : list str :=
  [tsv ["SYSTEM"; "Hello"; "OTHER"]].

(** One turn, closed by a sentinel that carries no score field. *)
Definition lines_bare_sentinel : list str :=
  [tsv ["SYSTEM"; "Hello"; "OTHER"];
   tsv ["USER"; "OVERALL"; "OTHER"]].


(** A line that begins with two tabs. *)
Definition line_two_leading_tabs : str :=
  TAB :: TAB :: tsv ["SYSTEM"; "Hello"; "OTHER"].

(** Two turns with scores and no sentinel (a scenario of the
    specification). *)
Definition lines_no_sentinel : list str :=
  [tsv ["USER"; "Hi"; "OTHER"; "2,4"];
   tsv ["SYSTEM"; "Hello"; "OTHER"; "3"]].

(** The state a fresh converter reaches on [lines_bare_sentinel]. *)
Definition after_bare_sentinel : DialogueConverter :=
  {| heap := [[turn "SYSTEM" "Hello" "OTHER" None]; []];
     dialogues := [mkDialogue 0 None];
     current_dialogue := 1%nat |}.
Example ascii_int_ok : py_int (lit "-12") = Some (-12).
Proof. reflexivity. Qed.

Example ascii_int_bad : py_int (lit "3a") = None.
Proof. reflexivity. Qed.

Example ascii_int_underscore :
  py_int (lit " 1_000") = Some 1000 /\ py_int (lit "1__0") = None
  /\ py_int (lit "_1") = None /\ py_int (lit "+") = None.
Proof. repeat split; reflexivity. Qed.

Example strip_ex : strip (TAB :: lit " a b " ++ [LF]) = lit "a b".
Proof. reflexivity. Qed.

Example split_ex : split TAB (tsv ["A"; ""; "x"]) = [lit "A"; []; lit "x"].
Proof. reflexivity. Qed.

(** The first scenario of the specification. *)
Example scenario_sentinel :
  corpus (snd (_process_lines
                 [tsv ["USER"; "Hi"; "OTHER"; "3,4"];
                  tsv ["SYSTEM"; "Hello"; "OTHER"];
                  tsv ["USER"; "OVERALL"; "OTHER"; "5"]] __init__))
  = [([turn "USER" "Hi" "OTHER" (Some [3; 4]);
       turn "SYSTEM" "Hello" "OTHER" None], Some [5])].
Proof. reflexivity. Qed.


(** [read_from_text] on the same scenario, as one text with a final
    line feed. *)
Example scenario_read_from_text :
  corpus (snd (read_from_text
                 (join [LF] [tsv ["USER"; "Hi"; "OTHER"; "3,4"];
                             tsv ["SYSTEM"; "Hello"; "OTHER"];
                             tsv ["USER"; "OVERALL"; "OTHER"; "5"];
                             []]) __init__))
  = [([turn "USER" "Hi" "OTHER" (Some [3; 4]);
       turn "SYSTEM" "Hello" "OTHER" None], Some [5])].
Proof. reflexivity. Qed.
(** ** Facts about [strip] and [split] *)

Section StringFacts.

Implicit Types (s u : str) (c sep : char).

Lemma rstrip_cons c s :
  rstrip (c :: s) =
    match rstrip s with
    | [] => if is_space c then [] else [c]
    | r => c :: r
    end.
Proof. reflexivity. Qed.

Lemma lstrip_spaces ws s :
  forallb is_space ws = true -> lstrip (ws ++ s) = lstrip s.
Proof.
  induction ws as [|c ws IH]; simpl; [done|].
  intros [Hc Hws]%andb_prop. rewrite Hc. auto.
Qed.

Lemma rstrip_all_space ws : forallb is_space ws = true -> rstrip ws = [].
Proof.
  induction ws as [|c ws IH]; simpl; [done|].
  intros [Hc Hws]%andb_prop. rewrite (IH Hws), Hc. done.
Qed.

Lemma rstrip_spaces s ws :
  forallb is_space ws = true -> rstrip (s ++ ws) = rstrip s.
Proof.
  intros Hws. induction s as [|c s IH]; simpl.
  - by apply rstrip_all_space.
  - by rewrite IH.
Qed.

Lemma strip_spaces_r s ws :
  forallb is_space ws = true -> strip (s ++ ws) = strip s.
Proof.
  intros Hws. unfold strip. induction s as [|c s IH].
  - pose proof (lstrip_spaces ws [] Hws) as E.
    rewrite app_nil_r in E. simpl. by rewrite E.
  - simpl lstrip. destruct (is_space c); [done|].
    by apply (rstrip_spaces (c :: s) ws).
Qed.

(** Whitespace around a string does not survive [strip]. *)
Lemma strip_surrounded ws1 s ws2 :
  forallb is_space ws1 = true -> forallb is_space ws2 = true ->
  strip (ws1 ++ s ++ ws2) = strip s.
Proof.
  intros H1 H2. rewrite <- (strip_spaces_r s ws2 H2).
  unfold strip. by rewrite lstrip_spaces.
Qed.

Lemma lstrip_idem s : lstrip (lstrip s) = lstrip s.
Proof.
  induction s as [|c s IH]; simpl; [done|].
  destruct (is_space c) eqn:Hc; [done|]. simpl. by rewrite Hc.
Qed.

(** The two halves of [strip] commute. *)
Lemma rstrip_lstrip s : rstrip (lstrip s) = lstrip (rstrip s).
Proof.
  induction s as [|c s IH]; [done|].
  rewrite rstrip_cons. simpl lstrip at 1.
  destruct (is_space c) eqn:Hc.
  - rewrite IH. destruct (rstrip s); simpl; [done|]. by rewrite Hc.
  - rewrite rstrip_cons. destruct (rstrip s); simpl; by rewrite Hc.
Qed.

Lemma split_nonempty sep s : split sep s <> [].
Proof.
  destruct s as [|c s]; simpl; [done|].
  destruct (c =? sep)%N; [done|]. by destruct (split sep s).
Qed.

Lemma split_cons_sep sep s : split sep (sep :: s) = [] :: split sep s.
Proof. simpl. by rewrite N.eqb_refl. Qed.

Lemma split_cons_other sep c s f fs :
  c <> sep -> split sep s = f :: fs ->
  split sep (c :: s) = (c :: f) :: fs.
Proof.
  intros Hc Hs. simpl. rewrite Hs.
  by destruct (N.eqb_spec c sep).
Qed.

(** One more field than separators. *)
Lemma split_length sep s :
  length (split sep s) = S (length (List.filter (N.eqb sep) s)).
Proof.
  induction s as [|c s IH]; simpl; [done|].
  rewrite (N.eqb_sym sep c).
  destruct (c =? sep)%N; simpl; [by rewrite IH|].
  destruct (split sep s) eqn:E; [by destruct (split_nonempty sep s)|].
  simpl in *. done.
Qed.

Lemma lstrip_fewer_sep sep s :
  (length (List.filter (N.eqb sep) (lstrip s))
   <= length (List.filter (N.eqb sep) s))%nat.
Proof.
  induction s as [|c s IH]; simpl; [done|].
  destruct (is_space c); simpl; [|done].
  destruct (sep =? c)%N; simpl; lia.
Qed.

Lemma rstrip_fewer_sep sep s :
  (length (List.filter (N.eqb sep) (rstrip s))
   <= length (List.filter (N.eqb sep) s))%nat.
Proof.
  induction s as [|c s IH]; [done|].
  rewrite rstrip_cons. destruct (rstrip s) as [|c' r].
  - destruct (is_space c); simpl; destruct (sep =? c)%N; simpl; lia.
  - simpl in *. destruct (sep =? c)%N; simpl; lia.
Qed.

(** Stripping a line never adds a field. *)
Lemma split_strip_length sep s :
  (length (split sep (strip s)) <= length (split sep s))%nat.
Proof.
  rewrite !split_length. unfold strip.
  pose proof (rstrip_fewer_sep sep (lstrip s)).
  pose proof (lstrip_fewer_sep sep s). lia.
Qed.

(** The first field of a right-stripped string is the first field of
    the string, up to its trailing whitespace. *)
Lemma split_rstrip_head s :
  forall g more, split TAB s = g :: more ->
  exists g' more', split TAB (rstrip s) = g' :: more' /\ rstrip g' = rstrip g.
Proof.
  induction s as [|c s IH]; intros g more Hs.
  - simpl in *. exists [], []. by simplify_eq.
  - destruct (split TAB s) as [|g0 more0] eqn:E;
      [by destruct (split_nonempty TAB s)|].
    destruct (IH _ _ eq_refl) as (h & t & Hh & Hg).
    rewrite rstrip_cons. simpl in Hs. rewrite E in Hs.
    destruct (N.eqb_spec c TAB) as [->|Hc]; simplify_eq.
    + destruct (rstrip s) as [|c' r'] eqn:Er.
      * exists [], []. done.
      * exists [], (h :: t). by rewrite split_cons_sep, Hh.
    + destruct (rstrip s) as [|c' r'] eqn:Er.
      * simpl in Hh. simplify_eq. simpl in Hg.
        rewrite rstrip_cons, <- Hg.
        destruct (is_space c) eqn:Hsp.
        -- exists [], []. done.
        -- exists [c], []. split; [|by simpl; rewrite Hsp].
           simpl. by destruct (N.eqb_spec c TAB).
      * exists (c :: h), t. split.
        -- by apply split_cons_other.
        -- by rewrite !rstrip_cons, Hg.
Qed.

(** A first field with a visible character stays first when the string
    is left-stripped, and only loses its leading whitespace. *)
Lemma split_lstrip_head s :
  forall f more, split TAB s = f :: more -> lstrip f <> [] ->
  split TAB (lstrip s) = lstrip f :: more.
Proof.
  induction s as [|c s IH]; intros f more Hs Hf.
  - simpl in Hs. by simplify_eq.
  - destruct (split TAB s) as [|f0 more0] eqn:E;
      [by destruct (split_nonempty TAB s)|].
    simpl in Hs. rewrite E in Hs.
    destruct (N.eqb_spec c TAB) as [->|Hc]; simplify_eq; try done.
    simpl in *. destruct (is_space c) eqn:Hsp.
    + by apply IH.
    + by apply split_cons_other.
Qed.

Lemma strip_alt s : strip s = lstrip (rstrip s).
Proof. apply rstrip_lstrip. Qed.

(** The first field after [strip], when the first raw field has a
    visible character: the same field up to surrounding whitespace. *)
Lemma split_strip_head s f more :
  split TAB s = f :: more -> strip f <> [] ->
  exists g more', split TAB (strip s) = g :: more' /\ strip g = strip f.
Proof.
  intros Hs Hf.
  assert (lstrip f <> []) as Hl.
  { intros E. apply Hf. unfold strip. by rewrite E. }
  pose proof (split_lstrip_head s f more Hs Hl) as H1.
  destruct (split_rstrip_head _ _ _ H1) as (g & more' & Hg & Hr).
  exists g, more'. split; [done|].
  rewrite !strip_alt, Hr, <- rstrip_lstrip, lstrip_idem.
  apply rstrip_lstrip.
Qed.

(** A right-stripped string is empty or ends with a visible character. *)
Lemma rstrip_last s :
  rstrip s = [] \/ exists u c, rstrip s = u ++ [c] /\ is_space c = false.
Proof.
  induction s as [|c s IH]; [by left|].
  rewrite rstrip_cons. destruct IH as [->|(u & c' & -> & Hc')].
  - destruct (is_space c) eqn:Hc; [by left|].
    right. by exists [], c.
  - right. destruct (u ++ [c']) eqn:E; [by destruct u|].
    rewrite <- E. by exists (c :: u), c'.
Qed.

(** The last field of a string that ends with another character than
    the separator is not empty. *)
Lemma split_snoc_last sep u c :
  c <> sep -> exists fs f, split sep (u ++ [c]) = fs ++ [f ++ [c]].
Proof.
  intros Hc. induction u as [|a u (fs & f & IH)]; simpl.
  - exists [], []. by destruct (N.eqb_spec c sep).
  - rewrite IH. destruct (a =? sep)%N.
    + by exists ([] :: fs), f.
    + destruct fs as [|f0 fs]; simpl.
      * by exists [], (a :: f).
      * by exists ((a :: f0) :: fs), f.
Qed.

Lemma split_strip_last s :
  (2 <= length (split TAB (strip s)))%nat ->
  exists fs f c, split TAB (strip s) = fs ++ [f ++ [c]].
Proof.
  intros Hlen. unfold strip in *.
  destruct (rstrip_last (lstrip s)) as [E|(u & c & E & Hc)].
  - rewrite E in Hlen. simpl in Hlen. lia.
  - rewrite E.
    destruct (split_snoc_last TAB u c) as (fs & f & Hs).
    { intros ->. done. }
    by exists fs, f, c.
Qed.

End StringFacts.

(** ** Facts about the line parser and the segmenter *)

Section SegmenterFacts.

Context `{IntParser}.

Implicit Types (self : DialogueConverter) (line : str) (lines : list str).

Lemma bind_run {A B} (m : M A) (k : A -> M B) self :
  (m ≫= k) self =
    match m self with
    | (Return a, self') => k a self'
    | (Raise e, self') => (Raise e, self')
    end.
Proof. reflexivity. Qed.

Lemma blank_line_not_a_turn line :
  strip line = [] -> parse_line line = Return None.
Proof. intros E. unfold parse_line. by rewrite E. Qed.

(** What one iteration of the loop does, by the result of the parser. *)
Lemma process_line_run line self :
  process_line line self =
    match parse_line line with
    | Raise e => (Raise e, self)
    | Return None => (Return tt, self)
    | Return (Some t) =>
        if is_overall t then
          if truthy (accumulator self)
          then (Return tt, closed (scores t) self)
          else (Return tt, self)
        else (Return tt, pushed t self)
    end.
Proof.
  unfold process_line. destruct (strip line) as [|c r] eqn:E.
  - by rewrite (blank_line_not_a_turn line E).
  - change (negb (truthy (c :: r))) with false. cbv iota.
    rewrite bind_run. unfold lift.
    destruct (parse_line line) as [[t|]|e]; try reflexivity.
    destruct (is_overall t); [|reflexivity].
    rewrite bind_run. unfold gets, accumulator.
    by destruct (deref (heap self) (current_dialogue self)).
Qed.

Lemma for_each_cons {A} (body : A -> M unit) x l self :
  for_each body (x :: l) self =
    match body x self with
    | (Return _, self') => for_each body l self'
    | (Raise e, self') => (Raise e, self')
    end.
Proof. reflexivity. Qed.

Lemma for_each_app {A} (body : A -> M unit) l1 l2 self :
  for_each body (l1 ++ l2) self =
    match for_each body l1 self with
    | (Return _, self') => for_each body l2 self'
    | (Raise e, self') => (Raise e, self')
    end.
Proof.
  revert self. induction l1 as [|x l1 IH]; intros self; [done|].
  rewrite <- app_comm_cons, !for_each_cons.
  destruct (body x self) as [[[]|e] s]; [apply IH|done].
Qed.

Lemma flush_last_run self :
  flush_last self =
    (Return tt,
     if truthy (accumulator self)
     then {| heap := heap self;
             dialogues := dialogues self
                            ++ [mkDialogue (current_dialogue self) None];
             current_dialogue := current_dialogue self |}
     else self).
Proof.
  unfold flush_last, accumulator. rewrite bind_run. unfold gets.
  by destruct (deref (heap self) (current_dialogue self)).
Qed.

Lemma process_lines_run lines self :
  _process_lines lines self =
    match for_each process_line lines self with
    | (Return _, self') => flush_last self'
    | (Raise e, self') => (Raise e, self')
    end.
Proof. reflexivity. Qed.

(** The list of finalized dialogues only grows, by appending. *)
Lemma process_line_dialogues line self :
  exists ds, dialogues (snd (process_line line self)) = dialogues self ++ ds.
Proof.
  rewrite process_line_run.
  destruct (parse_line line) as [[t|]|e]; simpl;
    try (exists []; by rewrite app_nil_r).
  destruct (is_overall t); [destruct (truthy _)|]; simpl;
    try (exists []; by rewrite app_nil_r).
  by eexists.
Qed.

Lemma for_each_dialogues lines self :
  exists ds,
    dialogues (snd (for_each process_line lines self)) = dialogues self ++ ds.
Proof.
  revert self. induction lines as [|l lines IH]; intros self.
  - exists []. by rewrite app_nil_r.
  - rewrite for_each_cons.
    destruct (process_line_dialogues l self) as [d1 H1].
    destruct (process_line l self) as [[[]|e] s]; simpl in H1.
    + destruct (IH s) as [d2 H2]. exists (d1 ++ d2).
      by rewrite H2, H1, app_assoc.
    + by exists d1.
Qed.

Lemma process_lines_dialogues lines self :
  exists ds,
    dialogues (snd (_process_lines lines self)) = dialogues self ++ ds.
Proof.
  rewrite process_lines_run.
  destruct (for_each_dialogues lines self) as [d1 H1].
  destruct (for_each process_line lines self) as [[[]|e] s]; simpl in H1.
  - rewrite flush_last_run. simpl. destruct (truthy _); simpl.
    + eexists. by rewrite H1, <- app_assoc.
    + by exists d1.
  - by exists d1.
Qed.

(** The parser raises exactly on the lines with an invalid score token. *)
Lemma parse_line_raises line :
  parse_line line = Raise ValueError <-> bad_score_line line.
Proof.
  unfold parse_line, bad_score_line, line_score_tokens.
  destruct (split TAB (strip line)) as [|p0 [|p1 [|p2 rest]]];
    try (split; [done|by intros ?%Exists_nil]).
  set (sc := score_field _).
  assert (score_ints sc = Raise ValueError
          <-> Exists (fun tok => py_int tok = None) (score_tokens sc)) as Hints.
  { unfold score_ints.
    destruct (mapM py_int (score_tokens sc)) as [l|] eqn:E.
    - split; [done|]. intros Hex.
      assert (is_Some (mapM py_int (score_tokens sc))) as Hs by eauto.
      apply mapM_is_Some in Hs. apply Exists_exists in Hex.
      destruct Hex as (tok & Hin & Hnone).
      rewrite Forall_forall in Hs. specialize (Hs tok Hin).
      simpl in Hs. rewrite Hnone in Hs. by destruct Hs.
    - split; [|done]. intros _.
      apply eq_None_not_Some in E. rewrite mapM_is_Some in E.
      apply not_Forall_Exists in E; [|intros x; apply _].
      eapply Exists_impl; [exact E|]. simpl. intros x Hx.
      destruct (py_int x); [|done]. destruct Hx. eauto. }
  destruct (truthy sc) eqn:Ht.
  - rewrite <- Hints. destruct (score_ints sc) as [l|[]]; [|done].
    split; done.
  - destruct sc; [|done]. split; [done|].
    unfold score_tokens. simpl. by intros ?%Exists_nil.
Qed.

End SegmenterFacts.

(** ** The segmenter: skipped lines, failures, flushes *)

Section SegmenterClaims.

Context `{IntParser}.

Implicit Types (self : DialogueConverter) (line : str) (lines : list str).

Lemma short_line_not_a_turn line :
  (length (split TAB (strip line)) < 3)%nat -> parse_line line = Return None.
Proof.
  unfold parse_line.
  destruct (split TAB (strip line)) as [|p0 [|p1 [|p2 rest]]]; simpl;
    try done; lia.
Qed.

Lemma not_a_turn_skipped line self :
  parse_line line = Return None -> process_line line self = (Return tt, self).
Proof. intros E. by rewrite process_line_run, E. Qed.

(** C9. A line that splits into fewer than 3 tab-separated fields, as it
    stands or once stripped, is not a turn: [parse_line] returns [None]
    without raising, the loop leaves the converter untouched, and the
    read goes on exactly as if the line were not in the input. *)
Theorem short_line_is_skipped line :
  (length (split TAB line) < 3)%nat
  \/ (length (split TAB (strip line)) < 3)%nat ->
  parse_line line = Return None
  /\ (forall self, process_line line self = (Return tt, self))
  /\ (forall pre post self,
        _process_lines (pre ++ line :: post) self
        = _process_lines (pre ++ post) self).
Proof.
  intros Hlen.
  assert (parse_line line = Return None) as Hp.
  { apply short_line_not_a_turn. destruct Hlen as [Hraw|Hs]; [|done].
    pose proof (split_strip_length TAB line). lia. }
  split; [done|]. split; [intros; by apply not_a_turn_skipped|].
  intros pre post self. rewrite !process_lines_run, !for_each_app.
  destruct (for_each process_line pre self) as [[[]|e] s]; [|done].
  by rewrite for_each_cons, (not_a_turn_skipped line s Hp).
Qed.

Lemma good_line_returns line self :
  ~ bad_score_line line ->
  exists self', process_line line self = (Return tt, self').
Proof.
  intros Hgood. rewrite process_line_run.
  destruct (parse_line line) as [[t|]|[]] eqn:E.
  - destruct (is_overall t); [destruct (truthy _)|]; eauto.
  - eauto.
  - by apply parse_line_raises in E.
Qed.

(** A read raises at the first line with an invalid score token, in the
    state the loop reached before that line. *)
Lemma first_bad_line_raises lines self :
  Exists bad_score_line lines ->
  exists pre bad post self',
    lines = pre ++ bad :: post
    /\ Forall (fun l => ~ bad_score_line l) pre
    /\ bad_score_line bad
    /\ for_each process_line pre self = (Return tt, self')
    /\ _process_lines lines self = (Raise ValueError, self')
    /\ exists ds, dialogues self' = dialogues self ++ ds.
Proof.
  revert self. induction lines as [|l lines IH]; intros self Hex.
  - by apply Exists_nil in Hex.
  - destruct (parse_line l) as [o|[]] eqn:E.
    + assert (~ bad_score_line l) as Hgood.
      { intros Hb%parse_line_raises. congruence. }
      apply Exists_cons in Hex as [Hb|Hex]; [done|].
      destruct (good_line_returns l self Hgood) as [s Hs].
      destruct (IH s Hex) as (pre & bad & post & s' & -> & Hpre & Hbad & Hloop & Hrun & ds & Hds).
      destruct (process_line_dialogues l self) as [d1 Hd1].
      rewrite Hs in Hd1. simpl in Hd1.
      exists (l :: pre), bad, post, s'. repeat split; try done.
      * by constructor.
      * by rewrite for_each_cons, Hs.
      * rewrite process_lines_run, for_each_cons, Hs.
        by rewrite process_lines_run in Hrun.
      * exists (d1 ++ ds). by rewrite Hds, Hd1, app_assoc.
    + exists [], l, lines, self. repeat split; try done.
      * by apply parse_line_raises.
      * by rewrite process_lines_run, for_each_cons, process_line_run, E.
      * exists []. by rewrite app_nil_r.
Qed.

(** C1 (amended). When some line has a score token that is not a valid
    integer, the read ([read_from_file], [read_from_text]) raises
    [ValueError] and returns nothing.  The converter is not rolled back:
    it stays in the state the loop reached on the lines before the first
    such line, so the dialogues flushed there remain appended after the
    ones it held before the read. *)
Theorem bad_score_aborts_read lines self :
  Exists bad_score_line lines ->
  exists pre bad post self',
    lines = pre ++ bad :: post
    /\ Forall (fun l => ~ bad_score_line l) pre
    /\ bad_score_line bad
    /\ for_each process_line pre self = (Return tt, self')
    /\ read_from_file lines self = (Raise ValueError, self')
    /\ (forall text, split LF (strip text) = lines ->
        read_from_text text self = (Raise ValueError, self'))
    /\ exists ds, dialogues self' = dialogues self ++ ds.
Proof.
  intros Hex.
  destruct (first_bad_line_raises lines self Hex)
    as (pre & bad & post & s & Hl & Hpre & Hbad & Hloop & Hrun & Hds).
  exists pre, bad, post, s. repeat split; try done.
  intros text <-. done.
Qed.

(** A sentinel flush leaves an empty accumulator behind. *)
Lemma closed_accumulator sc self : accumulator (closed sc self) = [].
Proof.
  unfold accumulator, closed, deref. simpl.
  by rewrite lookup_app_r, Nat.sub_diag.
Qed.

(** The flush at the end of the input does not touch the accumulator. *)
Lemma flush_last_accumulator self :
  accumulator (snd (flush_last self)) = accumulator self.
Proof. rewrite flush_last_run. simpl. by destruct (truthy _). Qed.

(** Dialogues appended by the loop: each one by a sentinel, whose
    scores it carries. *)
Lemma loop_closed_by_sentinel lines :
  forall self s1,
    for_each process_line lines self = (Return tt, s1) ->
    forall k d,
      (length (dialogues self) <= k)%nat ->
      dialogues s1 !! k = Some d ->
      exists t, closed_by_sentinel self lines k t /\ overall_scores d = scores t.
Proof.
  induction lines as [|l lines IH]; intros self s1 Hrun k d Hk Hd.
  - simpl in Hrun. unfold mret, M_ret in Hrun. simplify_eq.
    apply lookup_lt_Some in Hd. lia.
  - rewrite for_each_cons in Hrun.
    destruct (process_line l self) as [[[]|e] sa] eqn:Ep; [|done].
    destruct (decide (length (dialogues sa) <= k)%nat) as [Hge|Hlt].
    + destruct (IH sa s1 Hrun k d Hge Hd)
        as (t & (pre & line & post & s & -> & Hpre & Hpl & Hov & Hlen & Hgrow) & Hsc).
      exists t. split; [|done].
      exists (l :: pre), line, post, s. repeat split; try done.
      by rewrite for_each_cons, Ep.
    + pose proof Ep as Ep'. rewrite process_line_run in Ep'.
      destruct (parse_line l) as [[t|]|e] eqn:E; simplify_eq; try lia.
      destruct (is_overall t) eqn:Hov; [|simplify_eq; simpl in *; lia].
      destruct (truthy (accumulator self)); simplify_eq; [|lia].
      simpl in Hlt. rewrite length_app in Hlt. simpl in Hlt.
      assert (k = length (dialogues self)) as -> by lia.
      destruct (for_each_dialogues lines (closed (scores t) self)) as [ds Hds].
      rewrite Hrun in Hds. simpl in Hds.
      rewrite Hds, <- app_assoc in Hd.
      rewrite lookup_app_r, Nat.sub_diag in Hd by lia.
      simpl in Hd. simplify_eq.
      exists t. split; [|done].
      exists [], l, lines, self. repeat split; try done.
      rewrite Ep. simpl. rewrite length_app. simpl. lia.
Qed.

(** C3 (amended). A dialogue appended by a successful read was either
    closed by a sentinel, and then [overall_scores] is that sentinel's
    [scores] (absent when the sentinel carries no score), or flushed at
    the end of the input, and then [overall_scores] is absent.  So
    [overall_scores] is present only for a dialogue closed by a sentinel,
    and a dialogue flushed at the end of the input never has it. *)
Theorem overall_scores_from_sentinel lines self self' k d :
  _process_lines lines self = (Return tt, self') ->
  (length (dialogues self) <= k)%nat ->
  dialogues self' !! k = Some d ->
  ((exists t, closed_by_sentinel self lines k t
              /\ overall_scores d = scores t)
   \/ (flushed_at_end self lines k /\ overall_scores d = None))
  /\ (flushed_at_end self lines k -> overall_scores d = None)
  /\ (is_Some (overall_scores d) ->
      exists t, closed_by_sentinel self lines k t
                /\ scores t = overall_scores d).
Proof.
  intros Hrun Hk Hd. rewrite process_lines_run in Hrun.
  destruct (for_each process_line lines self) as [[[]|e] s1] eqn:Hloop; [|done].
  rewrite flush_last_run in Hrun.
  assert (forall s, for_each process_line lines self = (Return tt, s) -> s = s1)
    as Hs1 by (intros s Hs; congruence).
  assert (flushed_at_end self lines k -> overall_scores d = None) as Hend.
  { intros (s & Hs & Hlen & Hgrow). rewrite Hloop in Hs. simplify_eq.
    rewrite flush_last_run in Hgrow. simpl in Hgrow.
    destruct (truthy (accumulator s)); simpl in *; [|lia].
    rewrite lookup_app_r, Nat.sub_diag in Hd by lia.
    simpl in Hd. by simplify_eq. }
  assert ((exists t, closed_by_sentinel self lines k t
                     /\ overall_scores d = scores t)
          \/ (flushed_at_end self lines k /\ overall_scores d = None)) as Hcases.
  { destruct (decide (k < length (dialogues s1))%nat) as [Hlt|Hge].
    - left. apply (loop_closed_by_sentinel lines self s1 Hloop k d Hk).
      simplify_eq. destruct (truthy (accumulator s1)); simpl in Hd; [|done].
      by rewrite lookup_app_l in Hd.
    - right. assert (flushed_at_end self lines k) as Hf.
      { exists s1. split; [done|]. rewrite flush_last_run.
        simplify_eq. destruct (truthy (accumulator s1)); simpl in *.
        - pose proof (lookup_lt_Some _ _ _ Hd) as Hlt.
          rewrite length_app in *. simpl in *. lia.
        - apply lookup_lt_Some in Hd. lia. }
      split; [done|]. by apply Hend. }
  split; [done|]. split; [done|].
  intros [sc Hsc]. destruct Hcases as [(t & Hc & Ht)|[_ Hnone]].
  - exists t. split; [done|]. congruence.
  - congruence.
Qed.

(** Without a sentinel the loop only appends to the accumulator. *)
Lemma loop_without_sentinel lines :
  forall self,
    Forall (fun l => ~ bad_score_line l) lines ->
    Forall (fun t => is_overall t = false) (parsed_turns lines) ->
    (current_dialogue self < length (heap self))%nat ->
    exists s,
      for_each process_line lines self = (Return tt, s)
      /\ dialogues s = dialogues self
      /\ current_dialogue s = current_dialogue self
      /\ length (heap s) = length (heap self)
      /\ accumulator s = accumulator self ++ parsed_turns lines.
Proof.
  induction lines as [|l lines IH]; intros self Hgood Hno Hcur.
  - exists self. simpl. by rewrite app_nil_r.
  - apply Forall_cons in Hgood as [Hl Hgood].
    rewrite for_each_cons, process_line_run.
    unfold parsed_turns in *. simpl in Hno |- *.
    destruct (parse_line l) as [[t|]|[]] eqn:E.
    + simpl in Hno. apply Forall_cons in Hno as [Ht Hno]. rewrite Ht.
      destruct (IH (pushed t self) Hgood Hno) as (s & Hs & Hd & Hc & Hh & Ha).
      { simpl. by rewrite length_insert. }
      exists s. repeat split; try done.
      * rewrite Hh. simpl. by rewrite length_insert.
      * rewrite Ha. unfold accumulator at 1, pushed, deref. simpl.
        rewrite list_lookup_insert_eq by done. simpl.
        by rewrite <- app_assoc.
    + destruct (IH self Hgood Hno Hcur) as (s & Hs & Hd & Hc & Hh & Ha).
      by exists s.
    + by apply parse_line_raises in E.
Qed.

(** C4 (amended). For every input with no sentinel line and no invalid
    score token, the read on a fresh converter returns.  When at least
    one line parses as a turn the corpus is exactly one dialogue, holding
    all parsed turns in input order, with [overall_scores] absent; when no
    line parses as a turn the corpus is empty. *)
Theorem no_sentinel_one_dialogue lines :
  Forall (fun l => ~ bad_score_line l) lines ->
  Forall (fun t => is_overall t = false) (parsed_turns lines) ->
  exists self',
    _process_lines lines __init__ = (Return tt, self')
    /\ corpus self' = if truthy (parsed_turns lines)
                      then [(parsed_turns lines, None)]
                      else [].
Proof.
  intros Hgood Hno.
  destruct (loop_without_sentinel lines __init__ Hgood Hno)
    as (s & Hs & Hd & Hc & Hh & Ha); [simpl; lia|].
  rewrite process_lines_run, Hs, flush_last_run.
  eexists. split; [done|].
  change (accumulator __init__) with (@nil Turn) in Ha. simpl in Ha.
  rewrite Ha. unfold corpus.
  destruct (parsed_turns lines) as [|t ts] eqn:Et; simpl.
  - by rewrite Hd.
  - rewrite Hd. simpl. unfold dialogue_turns. simpl.
    unfold accumulator in Ha. by rewrite Ha.
Qed.

End SegmenterClaims.

(** ** The segmenter on concrete inputs *)

Lemma short_line_is_skipped_witness :
  parse_line short_line = Return None
  /\ (forall self, process_line short_line self = (Return tt, self))
  /\ (forall pre post self,
        _process_lines (pre ++ short_line :: post) self
        = _process_lines (pre ++ post) self).
Proof.
  apply (short_line_is_skipped short_line).
  left. vm_compute. lia.
Defined.

(** C1, as stated, fails: the read raises after the first dialogue was
    appended, and the converter keeps it. *)
Lemma read_failure_not_atomic :
  read_from_text (join [LF] lines_bad_score_after_sentinel) __init__
  = (Raise ValueError,
     {| heap := [[turn "SYSTEM" "Hello" "OTHER" None]; []];
        dialogues := [mkDialogue 0 (Some [5])];
        current_dialogue := 1%nat |})
  /\ dialogues __init__ = []
  /\ dialogues (snd (read_from_text (join [LF] lines_bad_score_after_sentinel)
                                    __init__))
     <> dialogues __init__.
Proof. split; [reflexivity|]. split; [reflexivity|]. vm_compute. discriminate. Qed.

Lemma bad_score_aborts_read_witness :
  exists pre bad post self',
    lines_bad_score_after_sentinel = pre ++ bad :: post
    /\ Forall (fun l => ~ bad_score_line l) pre
    /\ bad_score_line bad
    /\ for_each process_line pre __init__ = (Return tt, self')
    /\ read_from_file lines_bad_score_after_sentinel __init__
       = (Raise ValueError, self')
    /\ (forall text, split LF (strip text) = lines_bad_score_after_sentinel ->
        read_from_text text __init__ = (Raise ValueError, self'))
    /\ exists ds, dialogues self' = dialogues __init__ ++ ds.
Proof.
  apply (bad_score_aborts_read lines_bad_score_after_sentinel __init__).
  unfold bad_score_line. apply (bool_decide_unpack _). vm_compute. exact I.
Defined.

(** C2: after a read that ends without a sentinel the accumulator still
    holds the turns of the last dialogue, and shares its list with that
    dialogue: a second read appends to the finalized dialogue and flushes
    the same list once more. *)
Theorem end_of_input_flush_keeps_accumulator :
  let t1 := turn "SYSTEM" "Hello" "OTHER" None in
  let t2 := turn "USER" "Bye" "OTHER" None in
  let self1 := snd (_process_lines lines_unterminated __init__) in
  let self2 := snd (_process_lines [tsv ["USER"; "Bye"; "OTHER"]] self1) in
  fst (_process_lines lines_unterminated __init__) = Return tt
  /\ corpus self1 = [([t1], None)]
  /\ accumulator self1 = [t1]
  /\ corpus self2 = [([t1; t2], None); ([t1; t2], None)].
Proof. repeat split; reflexivity. Qed.

(** C3, as stated, fails: a dialogue closed by a sentinel that carries no
    score has [overall_scores] absent. *)
Lemma sentinel_without_scores :
  _process_lines lines_bare_sentinel __init__ = (Return tt, after_bare_sentinel)
  /\ dialogues after_bare_sentinel !! 0%nat = Some (mkDialogue 0 None)
  /\ closed_by_sentinel __init__ lines_bare_sentinel 0
       (turn "USER" "OVERALL" "OTHER" None)
  /\ overall_scores (mkDialogue 0 None) = None.
Proof.
  split; [reflexivity|]. split; [reflexivity|]. split; [|reflexivity].
  exists [tsv ["SYSTEM"; "Hello"; "OTHER"]], (tsv ["USER"; "OVERALL"; "OTHER"]), [].
  eexists. repeat split; reflexivity.
Qed.

Lemma overall_scores_from_sentinel_witness :
  ((exists t, closed_by_sentinel __init__ lines_bare_sentinel 0 t
              /\ overall_scores (mkDialogue 0 None) = scores t)
   \/ (flushed_at_end __init__ lines_bare_sentinel 0
       /\ overall_scores (mkDialogue 0 None) = None))
  /\ (flushed_at_end __init__ lines_bare_sentinel 0
      -> overall_scores (mkDialogue 0 None) = None)
  /\ (is_Some (overall_scores (mkDialogue 0 None)) ->
      exists t, closed_by_sentinel __init__ lines_bare_sentinel 0 t
                /\ scores t = overall_scores (mkDialogue 0 None)).
Proof.
  apply (overall_scores_from_sentinel
           lines_bare_sentinel __init__ after_bare_sentinel 0 (mkDialogue 0 None)).
  - reflexivity.
  - simpl. lia.
  - reflexivity.
Defined.

(** C4, as stated, fails: an input without a sentinel and without a turn
    yields no dialogue at all. *)
Lemma no_turn_no_dialogue :
  parsed_turns [short_line] = []
  /\ _process_lines [short_line] __init__ = (Return tt, __init__)
  /\ corpus __init__ = [].
Proof. repeat split; reflexivity. Qed.

Lemma no_sentinel_one_dialogue_witness :
  exists self',
    _process_lines lines_no_sentinel __init__ = (Return tt, self')
    /\ corpus self' = if truthy (parsed_turns lines_no_sentinel)
                      then [(parsed_turns lines_no_sentinel, None)]
                      else [].
Proof.
  apply (no_sentinel_one_dialogue lines_no_sentinel).
  - unfold bad_score_line. apply (bool_decide_unpack _). vm_compute. exact I.
  - apply (bool_decide_unpack _). vm_compute. exact I.
Defined.

Example no_sentinel_scenario :
  corpus (snd (_process_lines lines_no_sentinel __init__))
  = [([turn "USER" "Hi" "OTHER" (Some [2; 4]);
       turn "SYSTEM" "Hello" "OTHER" (Some [3])], None)].
Proof. reflexivity. Qed.

(** ** The line parser and surrounding whitespace *)

Section ParserClaims.

Context `{IntParser}.

(** [parse_line] only looks at the stripped line. *)
Lemma parse_line_strip (a b : str) :
  strip a = strip b -> parse_line a = parse_line b.
Proof. intros E. unfold parse_line. by rewrite E. Qed.

Lemma parse_line_surrounded (ws1 line ws2 : str) :
  forallb is_space ws1 = true -> forallb is_space ws2 = true ->
  parse_line (ws1 ++ line ++ ws2) = parse_line line.
Proof. intros H1 H2. by apply parse_line_strip, strip_surrounded. Qed.

Lemma parse_line_speaker (line g : str) (more : list str) (t : Turn) :
  split TAB (strip line) = g :: more ->
  parse_line line = Return (Some t) ->
  speaker t = strip g.
Proof.
  unfold parse_line. intros ->.
  destruct more as [|p1 [|p2 rest]]; try done.
  destruct (if truthy _ then _ else _); [|done].
  intros [= <-]. done.
Qed.

(** C10 (amended). [parse_line] strips leading and trailing whitespace,
    tabs included, from the whole line before it splits on tabs: a line
    parses as it does without the whitespace around it, in particular
    without a leading tab and without a trailing tab.  For a line that
    begins with a tab and whose second raw field has a character that is
    not whitespace, a returned turn has that second raw field, stripped,
    as its speaker.  Once stripped, a line of two fields or more never
    ends with an empty field, so a trailing tab never makes an empty
    score field. *)
Theorem surrounding_tabs_are_stripped :
  is_space TAB = true
  /\ (forall ws1 line ws2,
        forallb is_space ws1 = true -> forallb is_space ws2 = true ->
        parse_line (ws1 ++ line ++ ws2) = parse_line line)
  /\ (forall rest, parse_line (TAB :: rest) = parse_line rest)
  /\ (forall rest f2 more t,
        split TAB (TAB :: rest) = [] :: f2 :: more ->
        strip f2 <> [] ->
        parse_line (TAB :: rest) = Return (Some t) ->
        speaker t = strip f2)
  /\ (forall line, parse_line (line ++ [TAB]) = parse_line line)
  /\ (forall line,
        (2 <= length (split TAB (strip line)))%nat ->
        exists f, last (split TAB (strip line)) = Some f /\ f <> []).
Proof.
  split; [reflexivity|]. split; [apply parse_line_surrounded|].
  assert (forall rest, parse_line (TAB :: rest) = parse_line rest) as Hlead.
  { intros rest.
    pose proof (parse_line_surrounded [TAB] rest [] eq_refl eq_refl) as E.
    by rewrite app_nil_r in E. }
  split; [done|]. split; [|split].
  - intros rest f2 more t Hs Hf Hp.
    rewrite split_cons_sep in Hs. injection Hs as Hs.
    rewrite Hlead in Hp.
    destruct (split_strip_head rest f2 more Hs Hf) as (g & more' & Hg & <-).
    by apply (parse_line_speaker rest g more').
  - intros line.
    pose proof (parse_line_surrounded [] line [TAB] eq_refl eq_refl) as E.
    done.
  - intros line Hlen.
    destruct (split_strip_last line Hlen) as (fs & f & c & ->).
    exists (f ++ [c]). split; [apply last_snoc|]. by destruct f.
Qed.

End ParserClaims.

(** C10, as stated, fails: on a line that begins with two tabs the second
    raw field is empty, and the speaker is the third raw field. *)
Lemma second_field_not_speaker :
  split TAB line_two_leading_tabs !! 1%nat = Some []
  /\ split TAB line_two_leading_tabs !! 2%nat = Some (lit "SYSTEM")
  /\ parse_line line_two_leading_tabs
     = Return (Some (turn "SYSTEM" "Hello" "OTHER" None))
  /\ speaker (turn "SYSTEM" "Hello" "OTHER" None) = lit "SYSTEM"
  /\ lit "SYSTEM" <> [].
Proof. repeat split; try reflexivity. discriminate. Qed.

Lemma surrounding_tabs_are_stripped_witness :
  speaker (turn "SYSTEM" "Hello" "OTHER" None) = strip (lit " SYSTEM").
Proof.
  refine (proj1 (proj2 (proj2 (proj2 surrounding_tabs_are_stripped)))
            (tsv [" SYSTEM"; "Hello"; "OTHER"]) (lit " SYSTEM")
            [lit "Hello"; lit "OTHER"] _ _ _ _).
  - reflexivity.
  - vm_compute. discriminate.
  - reflexivity.
Defined.

(** ** The score aggregator, the structured record and the statistics *)

Section AggregatorClaims.

Implicit Types (self : DialogueConverter) (d : Dialogue) (ts : list Turn).

(** The loop over the turns collects the flattened scores. *)
Lemma all_scores_flattened ts (acc : list Z) :
  foldl (fun all_scores turn =>
           if truthy (items (scores turn))
           then all_scores ++ items (scores turn)
           else all_scores) acc ts
  = acc ++ flattened_scores ts.
Proof.
  revert acc. induction ts as [|t ts IH]; intros acc.
  - by rewrite app_nil_r.
  - simpl foldl. rewrite IH. unfold flattened_scores. simpl.
    destruct (scores t) as [[|x l]|]; simpl; try done.
    by rewrite <- app_assoc.
Qed.


(** C7. [scale_score] maps the ends of the old range to the ends of the
    new one, and returns [new_min] whenever the old range is a single
    number. *)
Theorem scale_score_endpoints_and_guard :
  (scale_score 1 1 5 1 100 == 1)%Q
  /\ (scale_score 5 1 5 1 100 == 100)%Q
  /\ (forall x m nm nx : Q, scale_score x m m nm nx = nm).
Proof.
  split; [reflexivity|]. split; [reflexivity|].
  intros x m nm nx. unfold scale_score.
  assert (Qeq_bool (m - m) 0 = true) as ->; [|done].
  apply Qeq_bool_iff. ring.
Qed.

Lemma positive_spec (x : Q) : positive x = true <-> (0 < x)%Q.
Proof.
  unfold positive. rewrite (Qgt_alt x 0).
  destruct (x ?= 0)%Q; split; done.
Qed.



Lemma len_cons {A} (x : A) (l : list A) : len (x :: l) = 1 + len l.
Proof. unfold len. simpl length. lia. Qed.

Lemma sum_values_cons (kv : str * Z) (counts : dict) :
  sum (dict_values (kv :: counts)) = snd kv + sum (dict_values counts).
Proof. reflexivity. Qed.

(** Counting one more turn adds one to the counts. *)
Lemma dict_incr_sum (counts : dict) (k : str) :
  sum (dict_values (dict_set counts k (dict_get counts k 0 + 1)))
  = sum (dict_values counts) + 1.
Proof.
  induction counts as [|[k' v] r IH]; [done|].
  cbn [dict_get dict_set]. destruct (eqb k' k).
  - rewrite !sum_values_cons. simpl. lia.
  - rewrite !sum_values_cons, IH. simpl. lia.
Qed.

Lemma count_intents_sum ts (counts : dict) :
  sum (dict_values (foldl count_intent counts ts))
  = sum (dict_values counts) + len ts.
Proof.
  revert counts. induction ts as [|t ts IH]; intros counts.
  - unfold len. simpl. lia.
  - simpl foldl. rewrite IH, len_cons. unfold count_intent.
    rewrite dict_incr_sum. lia.
Qed.

Lemma count_dialogues_sum self (ds : list Dialogue) (counts : dict) :
  sum (dict_values
         (foldl (fun intent_counts dialogue =>
                   foldl count_intent intent_counts
                         (dialogue_turns self dialogue)) counts ds))
  = sum (dict_values counts)
    + sum (map (fun d => len (dialogue_turns self d)) ds).
Proof.
  revert counts. induction ds as [|d ds IH]; intros counts.
  - simpl. lia.
  - simpl foldl. rewrite IH, count_intents_sum. simpl. lia.
Qed.

(** C8. The counts of the intent histogram of [get_statistics] add up to
    the total turn count, the sum over the dialogues of their numbers of
    turns. *)
Theorem intent_counts_sum_to_total_turns self :
  sum (dict_values (intent_distribution (get_statistics self)))
  = total_turns (get_statistics self)
  /\ total_turns (get_statistics self)
     = sum (map (fun d => len (dialogue_turns self d)) (dialogues self)).
Proof.
  split; [|reflexivity].
  unfold get_statistics. simpl. by rewrite count_dialogues_sum.
Qed.

End AggregatorClaims.

(** The second scenario of the specification: the average is 3. *)
Example average_of_turn_scores :
  let self := snd (_process_lines lines_no_sentinel __init__) in
  (calculate_dialogue_average self (mkDialogue 0 None) == 3)%Q
  /\ (round2 (scale_score_default 3) == 50.5)%Q.
Proof. split; reflexivity. Qed.



Example statistics_of_scenario :
  let stats := get_statistics (snd (_process_lines lines_no_sentinel __init__)) in
  total_turns stats = 2
  /\ intent_distribution stats = [(lit "OTHER", 2)].
Proof. split; reflexivity. Qed.

(** ** More facts about [strip] and [split] *)

Section MoreStringFacts.

Implicit Types (s a b : str) (c sep : char).

Lemma rstrip_idem s : rstrip (rstrip s) = rstrip s.
Proof.
  induction s as [|c s IH]; [done|].
  rewrite rstrip_cons. destruct (rstrip s) as [|c' r] eqn:E.
  - destruct (is_space c) eqn:Hc; [done|]. simpl. by rewrite Hc.
  - rewrite rstrip_cons, IH. done.
Qed.

Lemma strip_idem s : strip (strip s) = strip s.
Proof.
  unfold strip. rewrite (rstrip_lstrip (rstrip (lstrip s))).
  rewrite rstrip_idem, <- rstrip_lstrip. by rewrite lstrip_idem.
Qed.

Lemma strip_lstrip s : strip (lstrip s) = strip s.
Proof. unfold strip. by rewrite lstrip_idem. Qed.

Lemma strip_rstrip s : strip (rstrip s) = strip s.
Proof. rewrite !strip_alt. by rewrite rstrip_idem. Qed.

Lemma elem_of_lstrip c s : c ∈ lstrip s -> c ∈ s.
Proof.
  induction s as [|c' s IH]; simpl; [done|].
  destruct (is_space c'); [|done]. intros Hc.
  apply elem_of_cons. right. auto.
Qed.

Lemma elem_of_rstrip c s : c ∈ rstrip s -> c ∈ s.
Proof.
  induction s as [|c' s IH]; [done|].
  rewrite rstrip_cons. destruct (rstrip s) as [|c'' r].
  - destruct (is_space c'); [by intros ?%elem_of_nil|].
    intros ->%list_elem_of_singleton. apply elem_of_cons. by left.
  - intros [->|Hin]%elem_of_cons; apply elem_of_cons; [by left|right; auto].
Qed.

Lemma elem_of_strip c s : c ∈ strip s -> c ∈ s.
Proof. intros H. by apply elem_of_lstrip, elem_of_rstrip. Qed.

(** No field holds the separator. *)
Lemma split_fields_no_sep sep s : Forall (fun f => sep ∉ f) (split sep s).
Proof.
  induction s as [|c s IH]; simpl.
  - constructor; [apply not_elem_of_nil|constructor].
  - destruct (N.eqb_spec c sep) as [->|Hc].
    + constructor; [apply not_elem_of_nil|done].
    + destruct (split sep s) as [|f fs] eqn:E;
        [by destruct (split_nonempty sep s)|].
      inversion IH; subst. constructor; [|done].
      intros [->|?]%elem_of_cons; done.
Qed.

Lemma split_no_sep sep a : sep ∉ a -> split sep a = [a].
Proof.
  induction a as [|c a IH]; [done|]. intros Hn.
  apply not_elem_of_cons in Hn as [Hc Ha]. simpl. rewrite (IH Ha).
  by destruct (N.eqb_spec c sep).
Qed.

Lemma split_app_sep sep a b :
  sep ∉ a -> split sep (a ++ sep :: b) = a :: split sep b.
Proof.
  induction a as [|c a IH]; intros Hn.
  - apply split_cons_sep.
  - apply not_elem_of_cons in Hn as [Hc Ha].
    rewrite <- app_comm_cons. apply split_cons_other; [done|]. by apply IH.
Qed.

Lemma lstrip_app_visible a b : lstrip a <> [] -> lstrip (a ++ b) = lstrip a ++ b.
Proof.
  induction a as [|c a IH]; [done|]. simpl.
  destruct (is_space c); [apply IH|done].
Qed.

Lemma rstrip_app_visible a b : rstrip b <> [] -> rstrip (a ++ b) = a ++ rstrip b.
Proof.
  intros Hb. induction a as [|c a IH]; [done|].
  rewrite <- app_comm_cons, rstrip_cons, IH.
  change ((c :: a) ++ rstrip b) with (c :: (a ++ rstrip b)).
  destruct (a ++ rstrip b) eqn:E; [|done].
  apply app_eq_nil in E as [_ E]. done.
Qed.

Lemma strip_visible_lstrip s : strip s <> [] -> lstrip s <> [].
Proof. unfold strip. intros H E. apply H. by rewrite E. Qed.

Lemma strip_visible_rstrip s : strip s <> [] -> rstrip s <> [].
Proof. rewrite strip_alt. intros H E. apply H. by rewrite E. Qed.

End MoreStringFacts.

(** ** The line parser: what a returned turn holds *)

Section ParserExtras.

Context `{IntParser}.

(** A returned turn, read back from the fields of the stripped line. *)
Lemma parse_line_inv line t :
  parse_line line = Return (Some t) ->
  exists p0 p1 p2 rest zs,
    split TAB (strip line) = p0 :: p1 :: p2 :: rest
    /\ mapM py_int (score_tokens (score_field (p0 :: p1 :: p2 :: rest))) = Some zs
    /\ t = mkTurn (strip p0) (strip p1) (strip p2)
                  (if truthy zs then Some zs else None).
Proof.
  unfold parse_line.
  destruct (split TAB (strip line)) as [|p0 [|p1 [|p2 rest]]]; try done.
  set (sc := score_field _). intros Hp.
  exists p0, p1, p2, rest.
  destruct (truthy sc) eqn:Ht.
  - unfold score_ints in Hp.
    destruct (mapM py_int (score_tokens sc)) as [zs|] eqn:Em; [|done].
    exists zs. split; [done|]. split; [exact Em|by simplify_eq].
  - subst sc. destruct (score_field _) eqn:Es; [|done]. exists [].
    split; [done|]. split; [done|by simplify_eq].
Qed.

(** X1. The speaker, text and intent of a returned turn carry no
    whitespace at either end and no tab. *)
Theorem parsed_fields_are_clean line t :
  parse_line line = Return (Some t) ->
  (strip (speaker t) = speaker t /\ TAB ∉ speaker t)
  /\ (strip (text t) = text t /\ TAB ∉ text t)
  /\ (strip (intent t) = intent t /\ TAB ∉ intent t).
Proof.
  intros (p0 & p1 & p2 & rest & zs & Hs & _ & ->)%parse_line_inv.
  pose proof (split_fields_no_sep TAB (strip line)) as Hno.
  rewrite Hs in Hno.
  apply Forall_cons in Hno as [H0 Hno].
  apply Forall_cons in Hno as [H1 Hno].
  apply Forall_cons in Hno as [H2 _].
  simpl. repeat split; try apply strip_idem;
    intros Hin%elem_of_strip; done.
Qed.

(** X2. The scores of a returned turn are the integers of the score
    tokens of the line, in order; when there is no token they are absent,
    never an empty list. *)
Theorem parsed_scores_are_the_tokens line t :
  parse_line line = Return (Some t) ->
  mapM py_int (line_score_tokens line) = Some (items (scores t))
  /\ scores t <> Some []
  /\ (scores t = None <-> line_score_tokens line = []).
Proof.
  intros (p0 & p1 & p2 & rest & zs & Hs & Hz & ->)%parse_line_inv.
  unfold line_score_tokens. rewrite Hs, Hz. simpl.
  destruct zs as [|z zs]; simpl; repeat split; try done.
  - intros _. destruct (score_tokens _); [done|].
    simpl in Hz. destruct (py_int s); simpl in Hz; [|done].
    destruct (mapM py_int l); done.
  - intros E. rewrite E in Hz. done.
Qed.

(** X3. A line written as speaker, text, intent and scores joined by tabs
    parses back to these fields, stripped, when the fields hold no tab and
    the speaker and the score field have a visible character. *)
Theorem parse_line_of_fields (sp tx it sc : str) (zs : list Z) :
  TAB ∉ sp -> TAB ∉ tx -> TAB ∉ it -> TAB ∉ sc ->
  strip sp <> [] -> strip sc <> [] ->
  mapM py_int (score_tokens (strip sc)) = Some zs ->
  parse_line (sp ++ TAB :: tx ++ TAB :: it ++ TAB :: sc)
  = Return (Some (mkTurn (strip sp) (strip tx) (strip it)
                         (if truthy zs then Some zs else None))).
Proof.
  intros Hsp Htx Hit Hsc Vsp Vsc Hz.
  assert (strip (sp ++ TAB :: tx ++ TAB :: it ++ TAB :: sc)
          = lstrip sp ++ TAB :: tx ++ TAB :: it ++ TAB :: rstrip sc) as Hstrip.
  { unfold strip.
    rewrite lstrip_app_visible by by apply strip_visible_lstrip.
    replace (lstrip sp ++ TAB :: tx ++ TAB :: it ++ TAB :: sc)
      with ((lstrip sp ++ TAB :: tx ++ TAB :: it ++ [TAB]) ++ sc)
      by (by repeat progress (rewrite <- ?app_assoc; simpl)).
    rewrite rstrip_app_visible by by apply strip_visible_rstrip.
    by repeat progress (rewrite <- ?app_assoc; simpl). }
  assert (split TAB (strip (sp ++ TAB :: tx ++ TAB :: it ++ TAB :: sc))
          = [lstrip sp; tx; it; rstrip sc]) as Hsplit.
  { rewrite Hstrip.
    rewrite split_app_sep by (intros ?%elem_of_lstrip; done).
    rewrite !split_app_sep by done.
    rewrite split_no_sep by (intros ?%elem_of_rstrip; done). done. }
  unfold parse_line. rewrite Hsplit.
  unfold score_field. simpl lookup. cbv iota.
  rewrite strip_rstrip, strip_lstrip.
  destruct (strip sc) as [|c r] eqn:E; [done|]. simpl truthy. cbv iota.
  unfold score_ints. by rewrite Hz.
Qed.

(** Fields after the fourth have no effect on the result. *)
Lemma parse_line_four_fields (a b : str) :
  take 4 (split TAB (strip a)) = take 4 (split TAB (strip b)) ->
  parse_line a = parse_line b.
Proof.
  unfold parse_line, score_field.
  destruct (split TAB (strip a)) as [|a0 [|a1 [|a2 [|a3 ra]]]];
    destruct (split TAB (strip b)) as [|b0 [|b1 [|b2 [|b3 rb]]]];
    simpl; intros E; by simplify_eq.
Qed.

End ParserExtras.

Lemma parsed_fields_are_clean_witness :
  let t := turn "USER" "Hi" "OTHER" (Some [3; 4]) in
  (strip (speaker t) = speaker t /\ TAB ∉ speaker t)
  /\ (strip (text t) = text t /\ TAB ∉ text t)
  /\ (strip (intent t) = intent t /\ TAB ∉ intent t).
Proof.
  apply (parsed_fields_are_clean (tsv [" USER "; "Hi"; "OTHER"; "3,4"])).
  reflexivity.
Defined.

Lemma parsed_scores_are_the_tokens_witness :
  let line := tsv ["USER"; "Hi"; "OTHER"; "3, 4,"] in
  let t := turn "USER" "Hi" "OTHER" (Some [3; 4]) in
  mapM py_int (line_score_tokens line) = Some (items (scores t))
  /\ scores t <> Some []
  /\ (scores t = None <-> line_score_tokens line = []).
Proof.
  apply (parsed_scores_are_the_tokens (tsv ["USER"; "Hi"; "OTHER"; "3, 4,"])).
  reflexivity.
Defined.

Lemma parse_line_of_fields_witness :
  parse_line (lit " USER" ++ TAB :: lit "Hi there" ++ TAB :: lit "OTHER"
              ++ TAB :: lit "3,4 ")
  = Return (Some (mkTurn (strip (lit " USER")) (strip (lit "Hi there"))
                         (strip (lit "OTHER"))
                         (if truthy [3; 4] then Some [3; 4] else None))).
Proof.
  apply (parse_line_of_fields
           (lit " USER") (lit "Hi there") (lit "OTHER") (lit "3,4 ") [3; 4]);
    try (apply (bool_decide_unpack _); vm_compute; exact I);
    try (vm_compute; discriminate).
Defined.

(** ** The segmenter as a fold *)

Section SegmenterExtras.

Context `{IntParser}.

Implicit Types (self : DialogueConverter) (line : str) (lines : list str).

Lemma separated_init : separated __init__.
Proof. split; [simpl; lia|constructor]. Qed.

Lemma pushed_accumulator t self :
  (current_dialogue self < length (heap self))%nat ->
  accumulator (pushed t self) = accumulator self ++ [t].
Proof.
  intros Hc. unfold accumulator, pushed, deref. simpl.
  by rewrite list_lookup_insert_eq.
Qed.

Lemma pushed_corpus t self :
  separated self -> corpus (pushed t self) = corpus self.
Proof.
  intros [_ Hsep]. unfold corpus. simpl.
  apply map_ext_Forall. eapply Forall_impl; [exact Hsep|].
  intros d [_ Hne]. unfold dialogue_turns, deref. simpl.
  by rewrite list_lookup_insert_ne.
Qed.

Lemma pushed_separated t self : separated self -> separated (pushed t self).
Proof.
  intros [Hc Hsep]. split; simpl; rewrite length_insert; done.
Qed.

Lemma closed_corpus sc self :
  separated self ->
  corpus (closed sc self) = corpus self ++ [(accumulator self, sc)].
Proof.
  intros [Hc Hsep]. unfold corpus. simpl. rewrite map_app. simpl. f_equal.
  - apply map_ext_Forall. eapply Forall_impl; [exact Hsep|].
    intros d [Hlt _]. unfold dialogue_turns, deref. simpl.
    by rewrite lookup_app_l.
  - unfold dialogue_turns, accumulator, deref. simpl.
    by rewrite lookup_app_l.
Qed.

Lemma closed_separated sc self : separated self -> separated (closed sc self).
Proof.
  intros [Hc Hsep]. split; simpl; rewrite length_app; simpl; [lia|].
  apply Forall_app. split.
  - eapply Forall_impl; [exact Hsep|]. intros d [Hlt _]. simpl. lia.
  - constructor; [|constructor]. simpl. lia.
Qed.

(** The loop on a converter whose accumulator is not shared: it closes
    the dialogues of the fold, and keeps the turns the fold leaves. *)
Lemma loop_segment lines :
  forall self,
    separated self ->
    Forall (fun l => ~ bad_score_line l) lines ->
    exists s,
      for_each process_line lines self = (Return tt, s)
      /\ separated s
      /\ corpus s
         = corpus self
           ++ fst (segment_loop (accumulator self) (parsed_turns lines))
      /\ accumulator s
         = snd (segment_loop (accumulator self) (parsed_turns lines)).
Proof.
  induction lines as [|l lines IH]; intros self Hsep Hgood.
  - exists self. simpl. by rewrite app_nil_r.
  - apply Forall_cons in Hgood as [Hl Hgood].
    rewrite for_each_cons, process_line_run.
    unfold parsed_turns in *. simpl omap.
    destruct (parse_line l) as [[t|]|[]] eqn:E.
    + simpl segment_loop. destruct (is_overall t) eqn:Hov.
      * destruct (truthy (accumulator self)) eqn:Hacc.
        -- destruct (IH (closed (scores t) self)) as (s & Hs & Hsep' & Hc & Ha);
             [by apply closed_separated|done|].
           rewrite closed_accumulator in Hc, Ha.
           exists s. split; [done|]. split; [done|].
           destruct (segment_loop [] _) as [ds rest].
           simpl in *. rewrite Hc, closed_corpus by done.
           by rewrite <- app_assoc.
        -- destruct (IH self Hsep Hgood) as (s & Hs & Hsep' & Hc & Ha).
           by exists s.
      * destruct (IH (pushed t self)) as (s & Hs & Hsep' & Hc & Ha);
          [by apply pushed_separated|done|].
        rewrite pushed_accumulator in Hc, Ha by apply Hsep.
        rewrite pushed_corpus in Hc by done.
        by exists s.
    + destruct (IH self Hsep Hgood) as (s & Hs & Hsep' & Hc & Ha).
      by exists s.
    + by apply parse_line_raises in E.
Qed.

Lemma flush_last_corpus self :
  corpus (snd (flush_last self))
  = corpus self
    ++ (if truthy (accumulator self) then [(accumulator self, None)] else []).
Proof.
  rewrite flush_last_run. simpl. destruct (truthy _); simpl.
  - unfold corpus. simpl. by rewrite map_app.
  - by rewrite app_nil_r.
Qed.

(** A read on a converter whose accumulator is not shared, as a fold. *)
Lemma read_segment lines self :
  separated self ->
  Forall (fun l => ~ bad_score_line l) lines ->
  exists self',
    _process_lines lines self = (Return tt, self')
    /\ corpus self'
       = corpus self ++ segment (accumulator self) (parsed_turns lines).
Proof.
  intros Hsep Hgood.
  destruct (loop_segment lines self Hsep Hgood) as (s & Hs & _ & Hc & Ha).
  exists (snd (flush_last s)). split.
  - rewrite process_lines_run, Hs, flush_last_run. done.
  - rewrite flush_last_corpus, Hc, Ha. unfold segment.
    destruct (segment_loop _ _) as [ds rest]. simpl.
    by rewrite <- app_assoc.
Qed.

(** X4. On a converter whose accumulator is not shared with a finalized
    dialogue (a fresh one, for instance), a read without an invalid score
    returns, and the corpus it leaves is the corpus before the read
    followed by the dialogues of the fold [segment] over the parsed
    turns. *)
Theorem process_lines_is_segment lines self :
  separated self ->
  Forall (fun l => ~ bad_score_line l) lines ->
  exists self',
    _process_lines lines self = (Return tt, self')
    /\ corpus self'
       = corpus self ++ segment (accumulator self) (parsed_turns lines).
Proof. apply read_segment. Qed.

(** The fold neither loses nor repeats a turn: its dialogues and the
    turns it leaves are the accumulated turns and the turns that are no
    sentinel, in order. *)
Lemma segment_loop_turns (acc ts : list Turn) :
  concat (map fst (fst (segment_loop acc ts))) ++ snd (segment_loop acc ts)
  = acc ++ List.filter (fun t => negb (is_overall t)) ts.
Proof.
  revert acc. induction ts as [|t ts IH]; intros acc; simpl.
  - by rewrite app_nil_r.
  - destruct (is_overall t); simpl.
    + destruct acc as [|a acc]; simpl; [apply (IH [])|].
      specialize (IH []). destruct (segment_loop [] ts) as [ds rest].
      simpl in *. by rewrite <- app_assoc, IH.
    + rewrite IH. by rewrite <- app_assoc.
Qed.

Lemma segment_turns (acc ts : list Turn) :
  concat (map fst (segment acc ts))
  = acc ++ List.filter (fun t => negb (is_overall t)) ts.
Proof.
  rewrite <- segment_loop_turns. unfold segment.
  destruct (segment_loop acc ts) as [ds rest]. simpl.
  rewrite map_app, concat_app. f_equal.
  destruct rest; simpl; [done|]. by rewrite app_nil_r.
Qed.

(** X5. A read keeps every turn once and in order: after it, the turns of
    all dialogues, end to end, are those from before the read, then the
    accumulated turns, then the parsed turns that are no sentinel. *)
Theorem read_keeps_every_turn lines self :
  separated self ->
  Forall (fun l => ~ bad_score_line l) lines ->
  exists self',
    _process_lines lines self = (Return tt, self')
    /\ concat (map fst (corpus self'))
       = concat (map fst (corpus self)) ++ accumulator self
         ++ List.filter (fun t => negb (is_overall t)) (parsed_turns lines).
Proof.
  intros Hsep Hgood.
  destruct (read_segment lines self Hsep Hgood) as (s & Hs & Hc).
  exists s. split; [done|].
  by rewrite Hc, map_app, concat_app, segment_turns.
Qed.

Lemma segment_loop_nonempty (acc ts : list Turn) :
  Forall (fun d => fst d <> []) (fst (segment_loop acc ts)).
Proof.
  revert acc. induction ts as [|t ts IH]; intros acc; simpl; [constructor|].
  destruct (is_overall t); [|apply IH].
  destruct acc as [|a acc]; simpl; [apply IH|].
  specialize (IH []). destruct (segment_loop [] ts) as [ds rest].
  by constructor.
Qed.

Lemma segment_loop_no_sentinel (acc ts : list Turn) :
  Forall (fun t => is_overall t = false) acc ->
  Forall (fun d => Forall (fun t => is_overall t = false) (fst d))
         (fst (segment_loop acc ts))
  /\ Forall (fun t => is_overall t = false) (snd (segment_loop acc ts)).
Proof.
  revert acc. induction ts as [|t ts IH]; intros acc Hacc; simpl.
  - split; [constructor|done].
  - destruct (is_overall t) eqn:Hov.
    + destruct acc as [|a acc]; simpl; [by apply IH|].
      destruct (IH [] ltac:(constructor)) as [Hd Hr].
      destruct (segment_loop [] ts) as [ds rest]. simpl in *.
      split; [by constructor|done].
    + apply IH. apply Forall_app. split; [done|]. by repeat constructor.
Qed.

Lemma segment_loop_length (acc ts : list Turn) :
  (length (fst (segment_loop acc ts)) <= length (List.filter is_overall ts))%nat.
Proof.
  revert acc. induction ts as [|t ts IH]; intros acc; simpl; [done|].
  destruct (is_overall t); [|apply IH].
  destruct acc as [|a acc]; simpl.
  - specialize (IH []). lia.
  - specialize (IH []). destruct (segment_loop [] ts) as [ds rest].
    simpl in *. lia.
Qed.

(** X6. The dialogues a read appends all have at least one turn, none of
    their turns is a sentinel (when none was in the accumulator), and
    there is at most one more of them than sentinel lines. *)
Theorem appended_dialogues_are_proper lines self :
  separated self ->
  Forall (fun l => ~ bad_score_line l) lines ->
  Forall (fun t => is_overall t = false) (accumulator self) ->
  exists self' new,
    _process_lines lines self = (Return tt, self')
    /\ corpus self' = corpus self ++ new
    /\ Forall (fun d => fst d <> []
                        /\ Forall (fun t => is_overall t = false) (fst d)) new
    /\ (length new
        <= S (length (List.filter is_overall (parsed_turns lines))))%nat.
Proof.
  intros Hsep Hgood Hacc.
  destruct (read_segment lines self Hsep Hgood) as (s & Hs & Hc).
  exists s, (segment (accumulator self) (parsed_turns lines)).
  split; [done|]. split; [done|].
  pose proof (segment_loop_nonempty (accumulator self) (parsed_turns lines)) as Hne.
  pose proof (segment_loop_length (accumulator self) (parsed_turns lines)) as Hlen.
  destruct (segment_loop_no_sentinel (accumulator self) (parsed_turns lines) Hacc)
    as [Hno Hrest].
  unfold segment. destruct (segment_loop _ _) as [ds rest]. simpl in *.
  split.
  - apply Forall_app. split.
    + apply Forall_and. done.
    + destruct rest; simpl; constructor; [done|constructor].
  - rewrite length_app. destruct rest; simpl; lia.
Qed.

(** After a sentinel line the accumulator is empty, whatever it held. *)
Lemma sentinel_leaves_empty line t self :
  parse_line line = Return (Some t) -> is_overall t = true ->
  exists s, process_line line self = (Return tt, s) /\ accumulator s = [].
Proof.
  intros Hp Hov. rewrite process_line_run, Hp, Hov.
  destruct (truthy (accumulator self)) eqn:Hacc.
  - eexists. split; [done|]. apply closed_accumulator.
  - exists self. split; [done|]. by destruct (accumulator self).
Qed.

(** A sentinel line met with an empty accumulator changes nothing. *)
Lemma sentinel_on_empty_dropped line t self :
  parse_line line = Return (Some t) -> is_overall t = true ->
  accumulator self = [] ->
  process_line line self = (Return tt, self).
Proof. intros Hp Hov Hacc. by rewrite process_line_run, Hp, Hov, Hacc. Qed.

(** X7. Of two sentinel lines in a row the second is dropped: the read
    goes on exactly as if it were not in the input. *)
Theorem repeated_sentinel_is_dropped pre line1 line2 post t1 t2 self :
  parse_line line1 = Return (Some t1) -> is_overall t1 = true ->
  parse_line line2 = Return (Some t2) -> is_overall t2 = true ->
  _process_lines (pre ++ line1 :: line2 :: post) self
  = _process_lines (pre ++ line1 :: post) self.
Proof.
  intros Hp1 Ho1 Hp2 Ho2. rewrite !process_lines_run, !for_each_app.
  destruct (for_each process_line pre self) as [[[]|e] s]; [|done].
  rewrite !for_each_cons.
  destruct (sentinel_leaves_empty line1 t1 s Hp1 Ho1) as (s1 & -> & Hacc).
  cbv beta iota.
  by rewrite for_each_cons, (sentinel_on_empty_dropped line2 t2 s1 Hp2 Ho2 Hacc).
Qed.

(** X8. A read that ends with a sentinel line can be followed by a second
    read: together they do what one read of all the lines does. *)
Theorem reads_compose_after_sentinel lines1 line lines2 t self s1 :
  parse_line line = Return (Some t) -> is_overall t = true ->
  _process_lines (lines1 ++ [line]) self = (Return tt, s1) ->
  _process_lines lines2 s1 = _process_lines (lines1 ++ line :: lines2) self.
Proof.
  intros Hp Hov Hrun.
  rewrite process_lines_run, for_each_app in Hrun.
  rewrite (process_lines_run (lines1 ++ _)), for_each_app.
  destruct (for_each process_line lines1 self) as [[[]|e] s]; [|done].
  rewrite for_each_cons in Hrun |- *.
  destruct (sentinel_leaves_empty line t s Hp Hov) as (s' & Hs' & Hacc).
  rewrite Hs' in Hrun |- *. simpl in Hrun.
  unfold mret, M_ret in Hrun. rewrite flush_last_run, Hacc in Hrun.
  simpl in Hrun. by simplify_eq.
Qed.

(** X9. A read that ends without a sentinel leaves its last dialogue
    shared with the accumulator: on a fresh converter, a second read
    without a sentinel adds its turns to that finalized dialogue and
    appends the same list of turns again. *)
Theorem second_read_rewrites_last_dialogue lines1 lines2 :
  Forall (fun l => ~ bad_score_line l) lines1 ->
  Forall (fun l => ~ bad_score_line l) lines2 ->
  Forall (fun t => is_overall t = false) (parsed_turns lines1) ->
  Forall (fun t => is_overall t = false) (parsed_turns lines2) ->
  parsed_turns lines1 <> [] ->
  exists s1 s2,
    _process_lines lines1 __init__ = (Return tt, s1)
    /\ _process_lines lines2 s1 = (Return tt, s2)
    /\ corpus s1 = [(parsed_turns lines1, None)]
    /\ corpus s2 = [(parsed_turns lines1 ++ parsed_turns lines2, None);
                    (parsed_turns lines1 ++ parsed_turns lines2, None)].
Proof.
  intros Hg1 Hg2 Hn1 Hn2 Hne.
  destruct (loop_without_sentinel lines1 __init__ Hg1 Hn1)
    as (a & Ha & Hda & Hca & Hha & Hacc); [simpl; lia|].
  change (accumulator __init__) with (@nil Turn) in Hacc. simpl in Hacc.
  set (s1 := {| heap := heap a;
                dialogues := dialogues a ++ [mkDialogue (current_dialogue a) None];
                current_dialogue := current_dialogue a |}).
  assert (flush_last a = (Return tt, s1)) as Hf1.
  { rewrite flush_last_run, Hacc. by destruct (parsed_turns lines1). }
  assert (dialogues s1 = [mkDialogue 0 None] /\ current_dialogue s1 = 0%nat
          /\ heap s1 = heap a) as (Hd1 & Hc1 & Hh1).
  { subst s1. simpl. by rewrite Hda, Hca. }
  clearbody s1.
  assert (accumulator s1 = parsed_turns lines1) as Hacc1.
  { unfold accumulator. rewrite Hh1, Hc1, <- Hacc. unfold accumulator.
    by rewrite Hca. }
  destruct (loop_without_sentinel lines2 s1 Hg2 Hn2)
    as (b & Hb & Hdb & Hcb & Hhb & Haccb).
  { rewrite Hc1, Hh1, Hha. simpl. lia. }
  rewrite Hacc1 in Haccb.
  exists s1, (snd (flush_last b)). split; [|split; [|split]].
  - by rewrite process_lines_run, Ha.
  - by rewrite process_lines_run, Hb, flush_last_run.
  - unfold corpus, dialogue_turns. rewrite Hd1. simpl.
    unfold accumulator in Hacc1. rewrite Hc1 in Hacc1. by rewrite Hacc1.
  - assert (truthy (parsed_turns lines1 ++ parsed_turns lines2) = true) as Ht
      by by destruct (parsed_turns lines1).
    rewrite flush_last_run, Haccb, Ht. unfold corpus, dialogue_turns. simpl.
    rewrite Hdb, Hd1, Hcb, Hc1. simpl.
    unfold accumulator in Haccb. rewrite Hcb, Hc1 in Haccb.
    by rewrite Haccb.
Qed.

End SegmenterExtras.

Lemma process_lines_is_segment_witness :
  exists self',
    _process_lines lines_bare_sentinel __init__ = (Return tt, self')
    /\ corpus self'
       = corpus __init__
         ++ segment (accumulator __init__) (parsed_turns lines_bare_sentinel).
Proof.
  apply (process_lines_is_segment lines_bare_sentinel __init__).
  - split; [simpl; lia|constructor].
  - unfold bad_score_line. apply (bool_decide_unpack _). vm_compute. exact I.
Defined.

Lemma read_keeps_every_turn_witness :
  exists self',
    _process_lines lines_bare_sentinel __init__ = (Return tt, self')
    /\ concat (map fst (corpus self'))
       = concat (map fst (corpus __init__)) ++ accumulator __init__
         ++ List.filter (fun t => negb (is_overall t))
                        (parsed_turns lines_bare_sentinel).
Proof.
  apply (read_keeps_every_turn lines_bare_sentinel __init__).
  - split; [simpl; lia|constructor].
  - unfold bad_score_line. apply (bool_decide_unpack _). vm_compute. exact I.
Defined.

Lemma appended_dialogues_are_proper_witness :
  exists self' new,
    _process_lines lines_bare_sentinel __init__ = (Return tt, self')
    /\ corpus self' = corpus __init__ ++ new
    /\ Forall (fun d => fst d <> []
                        /\ Forall (fun t => is_overall t = false) (fst d)) new
    /\ (length new
        <= S (length (List.filter is_overall
                                  (parsed_turns lines_bare_sentinel))))%nat.
Proof.
  apply (appended_dialogues_are_proper lines_bare_sentinel __init__).
  - split; [simpl; lia|constructor].
  - unfold bad_score_line. apply (bool_decide_unpack _). vm_compute. exact I.
  - constructor.
Defined.

Lemma repeated_sentinel_is_dropped_witness :
  _process_lines ([tsv ["SYSTEM"; "Hello"; "OTHER"]]
                  ++ tsv ["USER"; "OVERALL"; "OTHER"; "5"]
                  :: tsv ["USER"; "OVERALL"; "OTHER"; "1"] :: []) __init__
  = _process_lines ([tsv ["SYSTEM"; "Hello"; "OTHER"]]
                    ++ tsv ["USER"; "OVERALL"; "OTHER"; "5"] :: []) __init__.
Proof.
  apply (repeated_sentinel_is_dropped
           [tsv ["SYSTEM"; "Hello"; "OTHER"]]
           (tsv ["USER"; "OVERALL"; "OTHER"; "5"])
           (tsv ["USER"; "OVERALL"; "OTHER"; "1"]) []
           (turn "USER" "OVERALL" "OTHER" (Some [5]))
           (turn "USER" "OVERALL" "OTHER" (Some [1])) __init__);
    reflexivity.
Defined.

Lemma reads_compose_after_sentinel_witness :
  _process_lines lines_unterminated after_bare_sentinel
  = _process_lines ([tsv ["SYSTEM"; "Hello"; "OTHER"]]
                    ++ tsv ["USER"; "OVERALL"; "OTHER"] :: lines_unterminated)
                   __init__.
Proof.
  apply (reads_compose_after_sentinel
           [tsv ["SYSTEM"; "Hello"; "OTHER"]] (tsv ["USER"; "OVERALL"; "OTHER"])
           lines_unterminated (turn "USER" "OVERALL" "OTHER" None)
           __init__ after_bare_sentinel);
    reflexivity.
Defined.

Lemma second_read_rewrites_last_dialogue_witness :
  exists s1 s2,
    _process_lines lines_unterminated __init__ = (Return tt, s1)
    /\ _process_lines lines_no_sentinel s1 = (Return tt, s2)
    /\ corpus s1 = [(parsed_turns lines_unterminated, None)]
    /\ corpus s2
       = [(parsed_turns lines_unterminated ++ parsed_turns lines_no_sentinel, None);
          (parsed_turns lines_unterminated ++ parsed_turns lines_no_sentinel, None)].
Proof.
  apply (second_read_rewrites_last_dialogue lines_unterminated lines_no_sentinel).
  - unfold bad_score_line. apply (bool_decide_unpack _). vm_compute. exact I.
  - unfold bad_score_line. apply (bool_decide_unpack _). vm_compute. exact I.
  - apply (bool_decide_unpack _). vm_compute. exact I.
  - apply (bool_decide_unpack _). vm_compute. exact I.
  - vm_compute. discriminate.
Defined.

(** ** The two readers see the same lines *)

Section ReaderExtras.

Context `{IntParser}.

Implicit Types (self : DialogueConverter) (line s : str) (lines : list str).













End ReaderExtras.

Example readlines_ex :
  readlines (join [LF] [lit "a"; lit "b"; []]) = [lit "a" ++ [LF]; lit "b" ++ [LF]]
  /\ readlines (join [LF] [lit "a"; lit "b"]) = [lit "a" ++ [LF]; lit "b"].
Proof. split; reflexivity. Qed.

(** ** Bounds of the averages and of the rescaled values *)

Section AggregateExtras.

Local Open Scope Q_scope.

Implicit Types (self : DialogueConverter) (d : Dialogue) (l : list Z).

Lemma sum_bounds l (lo hi : Z) :
  Forall (fun z => lo <= z <= hi)%Z l ->
  (lo * len l <= sum l <= hi * len l)%Z.
Proof.
  induction 1 as [|z l Hz Hl IH]; [unfold len; simpl; lia|].
  rewrite len_cons. unfold sum in *. simpl. nia.
Qed.

Lemma len_pos {A} (x : A) (r : list A) : (0 < len (x :: r))%Z.
Proof. rewrite len_cons. unfold len. lia. Qed.

(** The mean of integers between [lo] and [hi] lies between them. *)
Lemma mean_bounds l (lo hi : Z) :
  l <> [] -> Forall (fun z => lo <= z <= hi)%Z l ->
  inject_Z lo <= mean l <= inject_Z hi.
Proof.
  intros Hne Hl. destruct (sum_bounds l lo hi Hl) as [Hlo Hhi].
  destruct l as [|x r]; [done|]. pose proof (len_pos x r) as Hpos.
  unfold mean.
  assert (0 < inject_Z (len (x :: r))) as Hq.
  { change 0 with (inject_Z 0). by rewrite <- Zlt_Qlt. }
  split.
  - apply Qle_shift_div_l; [done|]. rewrite <- inject_Z_mult.
    by rewrite <- Zle_Qle.
  - apply Qle_shift_div_r; [done|]. rewrite <- inject_Z_mult.
    by rewrite <- Zle_Qle.
Qed.

Lemma flattened_scores_bounds (ts : list Turn) (lo hi : Z) :
  Forall (fun t => Forall (fun z => lo <= z <= hi)%Z (items (scores t))) ts ->
  Forall (fun z => lo <= z <= hi)%Z (flattened_scores ts).
Proof.
  unfold flattened_scores. induction 1 as [|t ts Ht Hts IH]; [constructor|].
  simpl. destruct (scores t) as [sc|]; [|done].
  simpl. apply Forall_app. by split.
Qed.

(** The average of a dialogue, case by case. *)
Lemma average_cases self d :
  (exists x r, overall_scores d = Some (x :: r)
               /\ calculate_dialogue_average self d = mean (x :: r))
  \/ (items (overall_scores d) = []
      /\ ((exists x r, flattened_scores (dialogue_turns self d) = x :: r
                       /\ calculate_dialogue_average self d = mean (x :: r))
          \/ (flattened_scores (dialogue_turns self d) = []
              /\ calculate_dialogue_average self d = 0))).
Proof.
  unfold calculate_dialogue_average. rewrite all_scores_flattened. simpl.
  destruct (overall_scores d) as [[|x r]|]; simpl; eauto 10;
    destruct (flattened_scores _) eqn:E; simpl; eauto 10.
Qed.

(** The average stays in the range of the scores. *)
Lemma average_in_range self d (lo hi : Z) :
  Forall (fun z => lo <= z <= hi)%Z (items (overall_scores d)) ->
  Forall (fun t => Forall (fun z => lo <= z <= hi)%Z (items (scores t)))
         (dialogue_turns self d) ->
  inject_Z lo <= calculate_dialogue_average self d <= inject_Z hi
  \/ (calculate_dialogue_average self d = 0
      /\ items (overall_scores d) = []
      /\ flattened_scores (dialogue_turns self d) = []).
Proof.
  intros Hov Hts.
  destruct (average_cases self d)
    as [(x & r & Ho & ->)|[Hnone [(x & r & Hf & ->)|[Hf ->]]]].
  - left. apply mean_bounds; [done|]. by rewrite Ho in Hov.
  - left. apply mean_bounds; [done|]. rewrite <- Hf.
    by apply flattened_scores_bounds.
  - by right.
Qed.


Lemma scale_score_affine (x a b c d : Q) :
  ~ b - a == 0 ->
  scale_score x a b c d == c + (x - a) * ((d - c) / (b - a)).
Proof.
  intros Hne. unfold scale_score.
  destruct (Qeq_bool (b - a) 0) eqn:E.
  - by apply Qeq_bool_iff in E.
  - field. done.
Qed.


(** On a rising old range [scale_score] is monotone and reaches the ends
    of the new range at the ends of the old one. *)
Lemma scale_score_mono (x y a b c d : Q) :
  a < b -> c <= d -> x <= y ->
  scale_score x a b c d <= scale_score y a b c d.
Proof.
  intros Hab Hcd Hxy.
  assert (0 < b - a) as Hpos by (unfold Qminus; rewrite <- Qlt_minus_iff; done).
  assert (~ b - a == 0) as Hne.
  { intros E. rewrite E in Hpos. by apply Qlt_irrefl in Hpos. }
  assert (0 <= (d - c) / (b - a)) as Hk.
  { apply Qle_shift_div_l; [done|]. rewrite Qmult_0_l.
    unfold Qminus. by rewrite <- Qle_minus_iff. }
  rewrite !scale_score_affine by done.
  apply Qplus_le_r, Qmult_le_compat_r; [|done].
  by apply Qplus_le_l.
Qed.

Lemma scale_score_ends (a b c d : Q) :
  a < b -> scale_score a a b c d == c /\ scale_score b a b c d == d.
Proof.
  intros Hab.
  assert (0 < b - a) as Hpos by (unfold Qminus; rewrite <- Qlt_minus_iff; done).
  assert (~ b - a == 0) as Hne.
  { intros E. rewrite E in Hpos. by apply Qlt_irrefl in Hpos. }
  split; rewrite scale_score_affine by done; field; done.
Qed.

Lemma scale_score_range (x a b c d : Q) :
  a < b -> c <= d -> a <= x -> x <= b ->
  c <= scale_score x a b c d /\ scale_score x a b c d <= d.
Proof.
  intros Hab Hcd Hax Hxb. destruct (scale_score_ends a b c d Hab) as [Ea Eb].
  split.
  - apply Qle_trans with (scale_score a a b c d);
      [rewrite Ea; apply Qle_refl|by apply scale_score_mono].
  - apply Qle_trans with (scale_score b a b c d);
      [by apply scale_score_mono|rewrite Eb; apply Qle_refl].
Qed.


End AggregateExtras.




(** ** The renderers *)

Section RendererExtras.

Implicit Types (self : DialogueConverter) (d : Dialogue).

(** Rounding to the nearest integer stays between integer bounds. *)
Lemma round_half_even_bounds (y : Q) (m n : Z) :
  (inject_Z m <= y)%Q -> (y <= inject_Z n)%Q ->
  m <= round_half_even y <= n.
Proof.
  intros Hm Hn. unfold round_half_even.
  pose proof (Qfloor_le y) as Hf1. pose proof (Qlt_floor y) as Hf2.
  set (f := Qfloor y) in *.
  assert (m <= f) as Hmf.
  { assert (inject_Z m < inject_Z (f + 1))%Q as Hlt by lra.
    rewrite <- Zlt_Qlt in Hlt. lia. }
  assert (f <= n) as Hfn.
  { assert (inject_Z f <= inject_Z n)%Q as Hle by lra.
    by rewrite <- Zle_Qle in Hle. }
  assert ((0 < y - inject_Z f)%Q -> f + 1 <= n) as Hup.
  { intros Hpos. destruct (decide (f + 1 <= n)) as [|Hge]; [done|].
    assert (f = n) as -> by lia. lra. }
  destruct (Qcompare_spec (y - inject_Z f) (1 # 2)) as [E|Hlt|Hgt].
  - destruct (Z.even f); [lia|]. split; [lia|]. apply Hup. rewrite E. done.
  - lia.
  - split; [lia|]. apply Hup. lra.
Qed.

Lemma round2_bounds (x : Q) (m n : Z) :
  (inject_Z m <= x)%Q -> (x <= inject_Z n)%Q ->
  (inject_Z m <= round2 x /\ round2 x <= inject_Z n)%Q.
Proof.
  intros Hm Hn. unfold round2.
  destruct (round_half_even_bounds (x * 100) (m * 100) (n * 100)) as [H1 H2].
  { rewrite inject_Z_mult. change (inject_Z 100) with 100%Q. lra. }
  { rewrite inject_Z_mult. change (inject_Z 100) with 100%Q. lra. }
  rewrite Zle_Qle, inject_Z_mult in H1, H2.
  change (inject_Z 100) with 100%Q in *.
  split.
  - apply Qle_shift_div_l; [done|]. done.
  - apply Qle_shift_div_r; [done|]. done.
Qed.

(** X14. For a dialogue whose scores all lie between 1 and 5, the
    structured record has a rounded average between 0 and 5, and a
    rescaled average between 1 and 100, or the absent marker when the
    dialogue has no score at all. *)
Theorem rescaled_average_within_1_100 self (i : nat) d :
  dialogues self !! i = Some d ->
  Forall (fun z => 1 <= z <= 5) (items (overall_scores d)) ->
  Forall (fun t => Forall (fun z => 1 <= z <= 5) (items (scores t)))
         (dialogue_turns self d) ->
  exists dd,
    Json.dialogues (to_json_format self) !! i = Some dd
    /\ (0 <= Json.average_score dd /\ Json.average_score dd <= 5)%Q
    /\ match Json.average_score_100 dd with
       | Some v => (1 <= v /\ v <= 100)%Q
       | None => items (overall_scores d) = []
                 /\ flattened_scores (dialogue_turns self d) = []
       end.
Proof.
  intros Hd Hov Hts. exists (dialogue_data_of self i d). split.
  { unfold to_json_format. simpl. by rewrite list_lookup_imap, Hd. }
  simpl.
  destruct (average_in_range self d 1 5 Hov Hts) as [[Hlo Hhi]|(E & Ho & Hf)].
  - change (inject_Z 1) with 1%Q in Hlo. change (inject_Z 5) with 5%Q in Hhi.
    split.
    + apply (round2_bounds _ 0 5); [change (inject_Z 0) with 0%Q; lra|done].
    + assert (positive (calculate_dialogue_average self d) = true) as ->.
      { apply positive_spec. lra. }
      destruct (scale_score_range (calculate_dialogue_average self d)
                  1 5 1 100) as [H1 H2]; try done.
      by apply (round2_bounds _ 1 100).
  - rewrite E. split; [by vm_compute|]. done.
Qed.

Lemma turn_of_data_of (i : nat) (t : Turn) : turn_of_data (turn_data_of i t) = t.
Proof. by destruct t. Qed.

(** X15. The structured record loses nothing: read back without the ids
    it is the corpus; and the ids of the dialogues, and of the turns in
    each dialogue, count up from 1 in order. *)
Theorem json_record_is_lossless self :
  corpus_of_json (to_json_format self) = corpus self
  /\ Json.total_dialogues (to_json_format self)
     = len (Json.dialogues (to_json_format self))
  /\ (forall (i : nat) dd,
        Json.dialogues (to_json_format self) !! i = Some dd ->
        Json.dialogue_id dd = Z.of_nat i + 1
        /\ forall (j : nat) td,
             Json.turns dd !! j = Some td -> Json.turn_id td = Z.of_nat j + 1).
Proof.
  unfold corpus_of_json, corpus, to_json_format. simpl. split; [|split].
  - apply list_eq. intros i.
    rewrite !list_lookup_fmap, list_lookup_imap.
    destruct (dialogues self !! i) as [d|]; simpl; [|done].
    do 2 f_equal. apply list_eq. intros j.
    rewrite list_lookup_fmap, list_lookup_imap.
    destruct (dialogue_turns self d !! j) as [t|]; simpl; [|done].
    by rewrite turn_of_data_of.
  - unfold len. by rewrite length_imap.
  - intros i dd. rewrite list_lookup_imap.
    destruct (dialogues self !! i) as [d|]; simpl; [|done].
    intros [= <-]. split; [done|]. intros j td. simpl.
    rewrite list_lookup_imap.
    destruct (dialogue_turns self d !! j) as [t|]; simpl; [|done].
    by intros [= <-].
Qed.

(** X16. The conversational-role record and the structured record agree
    on every dialogue: same id, same overall scores, same averages, and
    one message per turn with the text of the turn; and a role is only
    ever ["user"] or ["assistant"]. *)
Theorem chat_agrees_with_json self (i : nat) d :
  dialogues self !! i = Some d ->
  exists c dd,
    to_chat_format_json self !! i = Some c
    /\ Json.dialogues (to_json_format self) !! i = Some dd
    /\ Chat.conversation_id c = Json.dialogue_id dd
    /\ Chat.overall_scores c = Json.overall_scores dd
    /\ Chat.average_score c = Json.average_score dd
    /\ Chat.average_score_100 c = Json.average_score_100 dd
    /\ map Chat.content (Chat.messages c) = map Json.text (Json.turns dd)
    /\ Forall (fun m => Chat.role m = lit "user" \/ Chat.role m = lit "assistant")
              (Chat.messages c).
Proof.
  intros Hd. exists (conversation_of self i d), (dialogue_data_of self i d).
  unfold to_chat_format_json, to_json_format. simpl.
  rewrite !list_lookup_imap, Hd. simpl. repeat split; try done.
  - apply list_eq. intros j.
    rewrite !list_lookup_fmap, list_lookup_imap.
    by destruct (dialogue_turns self d !! j).
  - apply Forall_fmap, Forall_true. intros t. simpl.
    destruct (eqb _ _); [by left|by right].
Qed.

(** A message carries metadata exactly when the intent is not ["OTHER"]
    or the turn has scores; the role is ["user"] exactly for the speaker
    ["USER"]. *)
Lemma message_of_spec (t : Turn) :
  (Chat.role (message_of t) = lit "user" <-> speaker t = lit "USER")
  /\ (Chat.meta (message_of t) = None
      <-> intent t = lit "OTHER" /\ items (scores t) = []).
Proof.
  unfold message_of, eqb. simpl. split.
  - case_bool_decide; split; done.
  - case_bool_decide; destruct (items (scores t)); simpl; split;
      try done; intros []; done.
Qed.

End RendererExtras.

Lemma rescaled_average_within_1_100_witness :
  let self := snd (_process_lines lines_no_sentinel __init__) in
  let d := mkDialogue 0 None in
  exists dd,
    Json.dialogues (to_json_format self) !! 0%nat = Some dd
    /\ (0 <= Json.average_score dd /\ Json.average_score dd <= 5)%Q
    /\ match Json.average_score_100 dd with
       | Some v => (1 <= v /\ v <= 100)%Q
       | None => items (overall_scores d) = []
                 /\ flattened_scores (dialogue_turns self d) = []
       end.
Proof.
  apply (rescaled_average_within_1_100
           (snd (_process_lines lines_no_sentinel __init__)) 0
           (mkDialogue 0 None)).
  - reflexivity.
  - constructor.
  - apply (bool_decide_unpack _). vm_compute. exact I.
Defined.

Lemma chat_agrees_with_json_witness :
  let self := snd (_process_lines lines_no_sentinel __init__) in
  exists c dd,
    to_chat_format_json self !! 0%nat = Some c
    /\ Json.dialogues (to_json_format self) !! 0%nat = Some dd
    /\ Chat.conversation_id c = Json.dialogue_id dd
    /\ Chat.overall_scores c = Json.overall_scores dd
    /\ Chat.average_score c = Json.average_score dd
    /\ Chat.average_score_100 c = Json.average_score_100 dd
    /\ map Chat.content (Chat.messages c) = map Json.text (Json.turns dd)
    /\ Forall (fun m => Chat.role m = lit "user" \/ Chat.role m = lit "assistant")
              (Chat.messages c).
Proof.
  apply (chat_agrees_with_json
           (snd (_process_lines lines_no_sentinel __init__)) 0
           (mkDialogue 0 None)).
  reflexivity.
Defined.

(** ** The intent histogram and its printed order *)

Section StatisticsExtras.

Implicit Types (self : DialogueConverter) (counts : dict) (k : str).

Lemma dict_get_set_same counts k (v default : Z) :
  dict_get (dict_set counts k v) k default = v.
Proof.
  induction counts as [|[k' v'] r IH]; simpl.
  - unfold eqb. by rewrite bool_decide_eq_true_2.
  - destruct (eqb k' k) eqn:E; simpl; by rewrite E.
Qed.

Lemma dict_get_set_other counts k k' (v default : Z) :
  k <> k' ->
  dict_get (dict_set counts k v) k' default = dict_get counts k' default.
Proof.
  intros Hne. induction counts as [|[k0 v0] r IH]; simpl.
  - unfold eqb. by rewrite bool_decide_eq_false_2.
  - unfold eqb in *. case_bool_decide as E; simpl.
    + subst k0. unfold eqb. by rewrite !bool_decide_eq_false_2.
    + unfold eqb. case_bool_decide; [done|]. apply IH.
Qed.

Lemma count_intent_get counts (t : Turn) k :
  dict_get (count_intent counts t) k 0
  = dict_get counts k 0 + (if eqb (intent t) k then 1 else 0).
Proof.
  unfold count_intent, eqb. case_bool_decide as E.
  - subst k. by rewrite dict_get_set_same.
  - rewrite dict_get_set_other by done. lia.
Qed.

Lemma len_app {A} (l1 l2 : list A) : len (l1 ++ l2) = len l1 + len l2.
Proof. unfold len. rewrite length_app. lia. Qed.

Lemma count_intents_get (ts : list Turn) counts k :
  dict_get (foldl count_intent counts ts) k 0
  = dict_get counts k 0 + len (List.filter (fun t => eqb (intent t) k) ts).
Proof.
  revert counts. induction ts as [|t ts IH]; intros counts.
  - unfold len. simpl. lia.
  - simpl foldl. rewrite IH, count_intent_get. simpl List.filter.
    destruct (eqb (intent t) k); [rewrite len_cons|]; lia.
Qed.

(** The histogram loop is one loop over all the turns. *)
Lemma histogram_loop self (ds : list Dialogue) counts :
  foldl (fun intent_counts dialogue =>
           foldl count_intent intent_counts (dialogue_turns self dialogue))
        counts ds
  = foldl count_intent counts (concat (map (dialogue_turns self) ds)).
Proof.
  revert counts. induction ds as [|d ds IH]; intros counts; [done|].
  simpl. by rewrite IH, foldl_app.
Qed.

Lemma histogram_all_turns self :
  intent_distribution (get_statistics self)
  = foldl count_intent [] (all_turns self).
Proof. unfold get_statistics, all_turns. simpl. apply histogram_loop. Qed.

(** X17. The histogram of [get_statistics] gives every intent label the
    number of turns that carry it, over all dialogues; a label that no
    turn carries is not in it (its count reads as the default 0). *)
Theorem intent_count_is_exact self k :
  dict_get (intent_distribution (get_statistics self)) k 0
  = len (List.filter (fun t => eqb (intent t) k) (all_turns self)).
Proof. rewrite histogram_all_turns, count_intents_get. simpl. lia. Qed.

Lemma keys_dict_set counts k (v : Z) :
  map fst (dict_set counts k v) = add_key (map fst counts) k.
Proof.
  unfold add_key. induction counts as [|[k' v'] r IH]; simpl; [done|].
  unfold eqb. destruct (decide (k' = k)) as [->|Hne].
  - rewrite bool_decide_eq_true_2 by done. simpl.
    rewrite bool_decide_eq_true_2; [done|]. apply elem_of_cons. by left.
  - rewrite bool_decide_eq_false_2 by done. simpl. rewrite IH.
    destruct (decide (k ∈ map fst r)) as [Hin|Hin].
    + rewrite !bool_decide_eq_true_2; [done| |done]. apply elem_of_cons. by right.
    + rewrite !bool_decide_eq_false_2; [done| |done].
      intros [->|?]%elem_of_cons; done.
Qed.

Lemma keys_count_intents (ts : list Turn) counts :
  map fst (foldl count_intent counts ts)
  = foldl add_key (map fst counts) (map intent ts).
Proof.
  revert counts. induction ts as [|t ts IH]; intros counts; [done|].
  simpl. rewrite IH. unfold count_intent. by rewrite keys_dict_set.
Qed.

Lemma add_key_NoDup (keys : list str) k : NoDup keys -> NoDup (add_key keys k).
Proof.
  intros Hnd. unfold add_key. case_bool_decide as Hin; [done|].
  apply NoDup_app. split; [done|]. split; [|apply NoDup_singleton].
  intros x Hx ->%list_elem_of_singleton. done.
Qed.

Lemma first_seen_NoDup (labels keys : list str) :
  NoDup keys -> NoDup (foldl add_key keys labels).
Proof.
  revert keys. induction labels as [|k labels IH]; intros keys Hnd; [done|].
  simpl. by apply IH, add_key_NoDup.
Qed.

Lemma dict_get_positive counts k :
  Forall (fun kv => 1 <= snd kv) counts -> 0 <= dict_get counts k 0.
Proof.
  induction 1 as [|[k' v'] r Hv Hr IH]; simpl; [done|].
  destruct (eqb k' k); simpl in *; lia.
Qed.

Lemma dict_set_positive counts k (v : Z) :
  Forall (fun kv => 1 <= snd kv) counts -> 1 <= v ->
  Forall (fun kv => 1 <= snd kv) (dict_set counts k v).
Proof.
  intros Hc Hv. induction Hc as [|[k' v'] r Hv' Hr IH]; simpl.
  - by repeat constructor.
  - destruct (eqb k' k); constructor; done.
Qed.

Lemma count_intents_positive (ts : list Turn) counts :
  Forall (fun kv => 1 <= snd kv) counts ->
  Forall (fun kv => 1 <= snd kv) (foldl count_intent counts ts).
Proof.
  revert counts. induction ts as [|t ts IH]; intros counts Hc; [done|].
  simpl. apply IH. unfold count_intent. apply dict_set_positive; [done|].
  pose proof (dict_get_positive counts (intent t) Hc). lia.
Qed.

(** X18. The histogram lists each intent label once, in the order in
    which the labels are first seen in the turns, and every count in it is
    at least 1. *)
Theorem intent_keys_in_first_seen_order self :
  map fst (intent_distribution (get_statistics self))
  = first_seen (map intent (all_turns self))
  /\ NoDup (map fst (intent_distribution (get_statistics self)))
  /\ Forall (fun kv => 1 <= snd kv) (intent_distribution (get_statistics self)).
Proof.
  rewrite histogram_all_turns, keys_count_intents. split; [done|]. split.
  - apply first_seen_NoDup. constructor.
  - apply count_intents_positive. constructor.
Qed.

Lemma insert_by_count_perm (x : str * Z) (l : list (str * Z)) :
  insert_by_count x l ≡ₚ x :: l.
Proof.
  induction l as [|y r IH]; simpl; [done|].
  destruct (- snd x <=? - snd y); [done|].
  rewrite IH. apply Permutation_swap.
Qed.

Lemma sorted_by_count_perm (l : list (str * Z)) : sorted_by_count l ≡ₚ l.
Proof.
  induction l as [|x l IH]; simpl; [done|].
  by rewrite insert_by_count_perm, IH.
Qed.

Lemma insert_by_count_sorted (x : str * Z) (l : list (str * Z)) :
  StronglySorted (fun a b => snd b <= snd a) l ->
  StronglySorted (fun a b => snd b <= snd a) (insert_by_count x l).
Proof.
  induction 1 as [|y r Hr IH Hy]; simpl.
  - by repeat constructor.
  - destruct (Z.leb_spec (- snd x) (- snd y)) as [Hle|Hgt].
    + constructor; [by constructor|]. constructor; [lia|].
      eapply Forall_impl; [exact Hy|]. simpl. intros z Hz. lia.
    + constructor; [done|]. rewrite insert_by_count_perm.
      constructor; [lia|done].
Qed.

Lemma sorted_by_count_sorted (l : list (str * Z)) :
  StronglySorted (fun a b => snd b <= snd a) (sorted_by_count l).
Proof.
  induction l as [|x l IH]; simpl; [constructor|].
  by apply insert_by_count_sorted.
Qed.

Lemma insert_by_count_stable (c : Z) (x : str * Z) (l : list (str * Z)) :
  List.filter (fun kv => snd kv =? c) (insert_by_count x l)
  = List.filter (fun kv => snd kv =? c) (x :: l).
Proof.
  induction l as [|y r IH]; [done|]. simpl insert_by_count.
  destruct (Z.leb_spec (- snd x) (- snd y)) as [Hle|Hgt]; [done|].
  simpl List.filter in *. rewrite IH.
  destruct (Z.eqb_spec (snd y) c), (Z.eqb_spec (snd x) c); try done. lia.
Qed.

Lemma sorted_by_count_stable (c : Z) (l : list (str * Z)) :
  List.filter (fun kv => snd kv =? c) (sorted_by_count l)
  = List.filter (fun kv => snd kv =? c) l.
Proof.
  induction l as [|x l IH]; [done|]. simpl sorted_by_count.
  rewrite insert_by_count_stable. simpl. by rewrite IH.
Qed.

(** X19. [print_statistics] goes through the entries of the histogram,
    each once, by descending count; entries with the same count keep the
    order they have in the histogram. *)
Theorem printed_intents_order self :
  printed_intents self ≡ₚ intent_distribution (get_statistics self)
  /\ StronglySorted (fun a b => snd b <= snd a) (printed_intents self)
  /\ (forall c,
        List.filter (fun kv => snd kv =? c) (printed_intents self)
        = List.filter (fun kv => snd kv =? c)
                      (intent_distribution (get_statistics self))).
Proof.
  unfold printed_intents. split; [apply sorted_by_count_perm|].
  split; [apply sorted_by_count_sorted|]. intros c.
  apply sorted_by_count_stable.
Qed.

(** X20. With no finalized dialogue, [get_statistics] divides by nothing:
    the counts and averages are 0, the histogram and the list of averages
    are empty, and the rescaled average is the absent marker. *)
Theorem statistics_of_empty_corpus self :
  dialogues self = [] ->
  total_dialogues (get_statistics self) = 0
  /\ total_turns (get_statistics self) = 0
  /\ (average_turns_per_dialogue (get_statistics self) == 0)%Q
  /\ intent_distribution (get_statistics self) = []
  /\ dialogue_average_scores (get_statistics self) = []
  /\ (overall_average_score (get_statistics self) == 0)%Q
  /\ overall_average_score_100 (get_statistics self) = None.
Proof. intros E. unfold get_statistics. rewrite E. by repeat split. Qed.

End StatisticsExtras.

Lemma statistics_of_empty_corpus_witness :
  total_dialogues (get_statistics __init__) = 0
  /\ total_turns (get_statistics __init__) = 0
  /\ (average_turns_per_dialogue (get_statistics __init__) == 0)%Q
  /\ intent_distribution (get_statistics __init__) = []
  /\ dialogue_average_scores (get_statistics __init__) = []
  /\ (overall_average_score (get_statistics __init__) == 0)%Q
  /\ overall_average_score_100 (get_statistics __init__) = None.
Proof. apply (statistics_of_empty_corpus __init__). reflexivity. Defined.

Example printed_intents_ex :
  sorted_by_count [(lit "A", 1); (lit "B", 3); (lit "C", 1); (lit "D", 3)]
  = [(lit "B", 3); (lit "D", 3); (lit "A", 1); (lit "C", 1)].
Proof. reflexivity. Qed.

(** ** The prompts *)

Section PromptExtras.

Implicit Types (batch : list str) (start : Z).

Lemma dialogues_text_from start batch (acc : str) :
  foldl (fun dialogues_text '(idx, dialogue) =>
           dialogues_text ++ dialogue_block idx dialogue)
        acc (enumerate start batch)
  = acc ++ concat (imap (fun i d => dialogue_block (start + Z.of_nat i) d) batch).
Proof.
  revert start acc. induction batch as [|d batch IH]; intros start acc.
  - simpl. by rewrite app_nil_r.
  - cbn [enumerate foldl]. rewrite IH, imap_cons, concat_cons, <- app_assoc.
    change (Z.of_nat 0) with 0. rewrite Z.add_0_r. do 3 f_equal.
    apply imap_ext. intros i x _. cbn [compose]. f_equal. lia.
Qed.

(** X21. The prompts built around [{dialogues_text}] hold every dialogue
    of the batch, in order, each under a header with its number counted
    from 1; with an empty batch only the text of the template is left. *)
Theorem prompt_holds_every_dialogue (prompt_head prompt_tail : str) batch :
  get_user_prompt prompt_head prompt_tail batch
  = prompt_head
    ++ concat (imap (fun i d => dialogue_block (Z.of_nat i + 1) d) batch)
    ++ prompt_tail
  /\ (forall (i : nat) d,
        batch !! i = Some d ->
        exists before after,
          get_user_prompt prompt_head prompt_tail batch
          = before ++ dialogue_block (Z.of_nat i + 1) d ++ after)
  /\ get_user_prompt prompt_head prompt_tail [] = prompt_head ++ prompt_tail.
Proof.
  assert (forall b, get_user_prompt prompt_head prompt_tail b
                    = prompt_head
                      ++ concat (imap (fun i d => dialogue_block (Z.of_nat i + 1) d) b)
                      ++ prompt_tail) as Hform.
  { intros b. unfold get_user_prompt, dialogues_text.
    rewrite dialogues_text_from, app_nil_l. do 3 f_equal.
    apply imap_ext. intros i x _. f_equal. lia. }
  split; [apply Hform|]. split; [|done].
  intros i d Hd. rewrite Hform.
  set (f := fun (i : nat) (d : str) => dialogue_block (Z.of_nat i + 1) d).
  assert (exists l1 l2, concat (imap f batch) = l1 ++ f i d ++ l2)
    as (l1 & l2 & ->).
  { rewrite <- (take_drop_middle batch i d Hd).
    rewrite imap_app, concat_app, imap_cons, concat_cons.
    rewrite length_take_le by (apply lookup_lt_Some in Hd; lia).
    rewrite Nat.add_0_r. eauto. }
  exists (prompt_head ++ l1), (l2 ++ prompt_tail).
  by rewrite <- !app_assoc.
Qed.



End PromptExtras.

Example dialogue_block_ex :
  dialogue_block 12 (lit "USER: Hi")
  = [LF; LF] ++ lit "=== Dialogue 12 ===" ++ [LF] ++ lit "USER: Hi" ++ [LF].
Proof. reflexivity. Qed.

(** ** What a read never does *)

Section ReadInvariants.

Context `{IntParser}.

Implicit Types (self : DialogueConverter) (line : str) (lines : list str).

(** X23. [parse_line] raises exactly on a line with a score token that
    is no integer, and [ValueError] is all it raises; a line of at most
    three fields never raises. *)
Theorem parse_line_raises_iff line :
  (forall e, parse_line line = Raise e <-> e = ValueError /\ bad_score_line line)
  /\ ((length (split TAB (strip line)) <= 3)%nat ->
      exists r, parse_line line = Return r).
Proof.
  split.
  - intros []. rewrite parse_line_raises. split; [by intros Hb|by intros [_ Hb]].
  - intros Hlen. destruct (parse_line line) as [r|[]] eqn:E; [by exists r|].
    apply parse_line_raises in E.
    unfold bad_score_line, line_score_tokens in E.
    destruct (split TAB (strip line)) as [|p0 [|p1 [|p2 [|p3 rest]]]];
      simpl in *; try lia; by apply Exists_nil in E.
Qed.

Lemma grows_refl h : grows h h.
Proof. intros r. reflexivity. Qed.

Lemma grows_trans h1 h2 h3 : grows h1 h2 -> grows h2 h3 -> grows h1 h3.
Proof. intros H12 H23 r. etrans; [apply H12|apply H23]. Qed.

Lemma pushed_grows t self : grows (heap self) (heap (pushed t self)).
Proof.
  intros r. unfold pushed, deref. simpl.
  destruct (decide (r = current_dialogue self)) as [->|Hne].
  - destruct (heap self !! current_dialogue self) as [l|] eqn:E; simpl.
    + rewrite list_lookup_insert_eq by by eapply lookup_lt_Some.
      simpl. by apply prefix_app_r.
    + apply prefix_nil.
  - by rewrite list_lookup_insert_ne.
Qed.

Lemma closed_grows sc self : grows (heap self) (heap (closed sc self)).
Proof.
  intros r. unfold closed, deref. simpl.
  destruct (heap self !! r) as [l|] eqn:E; simpl; [|apply prefix_nil].
  by rewrite lookup_app_l_Some with (x := l).
Qed.

Lemma process_line_grows line self :
  grows (heap self) (heap (snd (process_line line self))).
Proof.
  rewrite process_line_run.
  destruct (parse_line line) as [[t|]|e]; cbn [snd]; try apply grows_refl.
  destruct (is_overall t); [destruct (truthy _)|]; cbn [snd].
  - apply closed_grows.
  - apply grows_refl.
  - apply pushed_grows.
Qed.

Lemma for_each_grows lines self :
  grows (heap self) (heap (snd (for_each process_line lines self))).
Proof.
  revert self. induction lines as [|l lines IH]; intros self.
  - apply grows_refl.
  - rewrite for_each_cons. pose proof (process_line_grows l self) as Hl.
    destruct (process_line l self) as [[[]|e] s]; simpl in *; [|done].
    by eapply grows_trans.
Qed.

(** X24. Whether it returns or raises, a read only appends: the
    finalized dialogues from before are still there, first and in order,
    and every list of turns in the store still starts with the turns it
    held. *)
Theorem read_only_appends lines self :
  (exists ds, dialogues (snd (_process_lines lines self)) = dialogues self ++ ds)
  /\ (forall d, dialogue_turns self d
                `prefix_of` dialogue_turns (snd (_process_lines lines self)) d).
Proof.
  split; [apply process_lines_dialogues|].
  intros d. unfold dialogue_turns. rewrite process_lines_run.
  pose proof (for_each_grows lines self (turns d)) as Hg.
  destruct (for_each process_line lines self) as [[[]|e] s]; simpl in *; [|done].
  rewrite flush_last_run. simpl. by destruct (truthy _).
Qed.

End ReadInvariants.
